(** * ReflectTool: the REFLECT payload parser of src/lib/tools/reflect/index.ts

    A shallow embedding of [ReflectTool.doWork] and the proofs of its
    specification.  JavaScript strings are sequences of UTF-16 code units;
    the four regular expressions of the source all have the shape
    [<name>([\s\S]*?)</name>] and are given their backtracking semantics;
    [Date.now()] is an oracle indexed by the number of reads made so far;
    the promise [doWork] returns is taken for the value it resolves to. *)

From Equations.Prop Require Import Equations Logic.
From Stdlib Require Import List Arith ZArith NArith Lia Bool Ascii.
From Stdlib Require String Decimal DecimalString DecimalNat DecimalZ Permutation.
Import ListNotations.

Import String.StringSyntax.

Abbreviation string := String.string.
Local Open Scope string_scope.
Local Open Scope list_scope.

Set Implicit Arguments.

(* ===================================================================== *)
(** ** JavaScript strings *)
(* ===================================================================== *)

(** A UTF-16 code unit, 0 .. 65535. *)
Definition code_unit := N.

Definition jsstring := list code_unit.

(** The code units of an ASCII literal of the source. *)
Definition lit (s : string) : jsstring :=
  map N_of_ascii (String.list_ascii_of_string s).

(** [strip_prefix p s] is what is left of [s] after the literal [p] has
    been matched at its start, if it matches there. *)
Fixpoint strip_prefix (p s : jsstring) : option jsstring :=
  match p with
  | [] => Some s
  | x :: p' =>
      match s with
      | [] => None
      | y :: s' => if N.eqb x y then strip_prefix p' s' else None
      end
  end.

(** ECMAScript WhiteSpace and LineTerminator code points, the ones
    [String.prototype.trim] strips; all lie in the basic plane. *)
Definition is_white_space (c : code_unit) : bool :=
  ((c =? 9) || (c =? 10) || (c =? 11) || (c =? 12) || (c =? 13) ||
   (c =? 32) || (c =? 160) || (c =? 5760) ||
   ((8192 <=? c) && (c <=? 8202)) ||
   (c =? 8232) || (c =? 8233) || (c =? 8239) || (c =? 8287) ||
   (c =? 12288) || (c =? 65279))%N.

Fixpoint trim_start (s : jsstring) : jsstring :=
  match s with
  | [] => []
  | c :: s' => if is_white_space c then trim_start s' else s
  end.

Definition trim_end (s : jsstring) : jsstring :=
  rev (trim_start (rev s)).

(** [String.prototype.trim]. *)
Definition trim (s : jsstring) : jsstring := trim_end (trim_start s).

(* ===================================================================== *)
(** ** Regular expressions of the shape [open([\s\S]*?)close] *)
(* ===================================================================== *)

(** The source's four patterns are a literal opening tag, a lazily
    repeated any-code-unit class in a capture group, and a literal closing
    tag.  A pattern is kept as its two literals. *)
Record tag_regex := TagRegex { re_open : jsstring; re_close : jsstring }.

Definition tag (name : string) : tag_regex :=
  TagRegex (lit "<" ++ lit name ++ lit ">") (lit "</" ++ lit name ++ lit ">").

Definition taskRegex : tag_regex := tag "task".
Definition descRegex : tag_regex := tag "description".
Definition reasoningRegex : tag_regex := tag "reasoning".
Definition subProblemRegex : tag_regex := tag "sub_problem".

(** The lazy quantifier: try the closing literal here, and only when it
    fails consume one more code unit.  The result is the capture and what
    follows the whole match. *)
Fixpoint lazy_until (close s : jsstring) : option (jsstring * jsstring) :=
  match strip_prefix close s with
  | Some rest => Some ([], rest)
  | None =>
      match s with
      | [] => None
      | c :: s' =>
          match lazy_until close s' with
          | Some (cap, rest) => Some (c :: cap, rest)
          | None => None
          end
      end
  end.

(** The pattern anchored at the start of [s]. *)
Definition match_here (re : tag_regex) (s : jsstring)
  : option (jsstring * jsstring) :=
  match strip_prefix (re_open re) s with
  | Some s1 => lazy_until (re_close re) s1
  | None => None
  end.

(** One search of the backtracking matcher: the leftmost start position at
    which the pattern matches, tried in increasing order.  [s] is the
    subject from [lastIndex] on (the patterns have no anchor and no
    look-behind, so what precedes [lastIndex] plays no part); the rest that
    is returned is the subject from the new [lastIndex] on. *)
Fixpoint regex_exec (re : tag_regex) (s : jsstring)
  : option (jsstring * jsstring) :=
  match match_here re s with
  | Some r => Some r
  | None =>
      match s with
      | [] => None
      | _ :: s' => regex_exec re s'
      end
  end.

(** [String.prototype.match] with a pattern that has no [g] flag: the
    first match; only capture group 1 is read by the source. *)
Definition str_match (re : tag_regex) (s : jsstring) : option jsstring :=
  option_map fst (regex_exec re s).

(* ===================================================================== *)
(** ** Numbers in template literals *)
(* ===================================================================== *)

(** [Number::toString] of a counter. *)
Definition string_of_nat (n : nat) : jsstring :=
  lit (DecimalString.NilEmpty.string_of_uint (Nat.to_uint n)).

(** [Number::toString] of a time value, an integer number of
    milliseconds. *)
Definition string_of_time (z : Z) : jsstring :=
  lit (DecimalString.NilEmpty.string_of_int (Z.to_int z)).

(* ===================================================================== *)
(** ** Values, records and results *)
(* ===================================================================== *)

(** The values a parameter of type [any] can hold, as far as [!v] and
    [typeof v] tell them apart. *)
Inductive JSValue :=
| JUndefined
| JNull
| JBoolean (b : bool)
| JNumber (z : Z)
| JString (s : jsstring)
| JObject.

(** ToBoolean. *)
Definition truthy (v : JSValue) : bool :=
  match v with
  | JUndefined | JNull => false
  | JBoolean b => b
  | JNumber z => negb (Z.eqb z 0)
  | JString s => match s with [] => false | _ :: _ => true end
  | JObject => true
  end.

Definition typeof (v : JSValue) : string :=
  match v with
  | JUndefined => "undefined"
  | JNull => "object"
  | JBoolean _ => "boolean"
  | JNumber _ => "number"
  | JString _ => "string"
  | JObject => "object"
  end.

(** [Record<string, any>]: a key that is not set reads as [undefined]. *)
Definition Parameters := string -> JSValue.

(** An element of [TaskEntry.sub_problems]. *)
Record SubProblem := {
  sp_id : jsstring;
  sp_description : jsstring;
  sp_reasoning : jsstring
}.

(** [TaskEntry], with the fields [doWork] sets. *)
Record TaskEntry := {
  id : jsstring;
  description : jsstring;
  reasoning : jsstring;
  sub_problems : list SubProblem
}.

(** Modelled from the spec: the envelopes built by [createFailureResult]
    and [createSuccessResult] of the base tool, which is not part of the
    sources at hand.  A failure wraps a message; a success wraps the
    object [{ new_tasks, tasks_count }]. *)
Inductive ExecutionResult :=
| FailureResult (error : jsstring)
| SuccessResult (new_tasks : list TaskEntry) (tasks_count : nat).

Definition createFailureResult (msg : jsstring) : ExecutionResult :=
  FailureResult msg.

Definition createSuccessResult (new_tasks : list TaskEntry) (tasks_count : nat)
  : ExecutionResult :=
  SuccessResult new_tasks tasks_count.

(** The messages and the placeholder of the source. *)
Definition msg_requires_parameter : jsstring :=
  lit "REFLECT tool requires 'new_tasks' parameter as a string with XML format.".

Definition msg_missing_description (taskIndex : nat) : jsstring :=
  lit "REFLECT tool: Task " ++ string_of_nat (taskIndex + 1) ++
  lit " must have a <description> element.".

Definition msg_missing_sub_problem (taskIndex : nat) : jsstring :=
  lit "REFLECT tool: Task " ++ string_of_nat (taskIndex + 1) ++
  lit " must have at least one <sub_problem> element.".

Definition msg_no_valid_task : jsstring :=
  lit "REFLECT tool: No valid <task> elements found in new_tasks parameter.".

Definition generated_by_reflection : jsstring := lit "Generated by reflection".

Definition sub_id (time : Z) (taskIndex subIndex : nat) : jsstring :=
  lit "reflect_sub_" ++ string_of_time time ++ lit "_" ++
  string_of_nat taskIndex ++ lit "_" ++ string_of_nat subIndex.

Definition task_id (time : Z) (taskIndex : nat) : jsstring :=
  lit "reflect_task_" ++ string_of_time time ++ lit "_" ++
  string_of_nat taskIndex.

(* ===================================================================== *)
(** ** The wall clock *)
(* ===================================================================== *)

(** [Date.now()] is read once per record.  [now k] is what the read
    number [k] of one call of [doWork] returns; the loops thread the
    number of reads made so far. *)
Definition Clock := nat -> Z.

(* ===================================================================== *)
(** ** Termination of the two search loops *)
(* ===================================================================== *)

Lemma strip_prefix_length p s r :
  strip_prefix p s = Some r -> length s = length p + length r.
Proof.
  revert s; induction p as [|x p IH]; intros [|y s] H; simpl in *;
    try discriminate; try (injection H as <-; reflexivity).
  destruct (N.eqb x y); [|discriminate].
  rewrite (IH _ H); reflexivity.
Qed.

Lemma lazy_until_length close s cap rest :
  lazy_until close s = Some (cap, rest) ->
  length s = length cap + length close + length rest.
Proof.
  revert cap; induction s as [|c s IH]; intros cap; simpl.
  - destruct (strip_prefix close []) eqn:E; [|discriminate].
    intros [= <- <-]. apply strip_prefix_length in E. simpl in *; lia.
  - destruct (strip_prefix close (c :: s)) eqn:E.
    + intros [= <- <-]. apply strip_prefix_length in E. simpl in *; lia.
    + destruct (lazy_until close s) as [[cap' rest']|]; [|discriminate].
      intros [= <- <-]. rewrite (IH _ eq_refl). simpl; lia.
Qed.

Lemma match_here_length re s cap rest :
  match_here re s = Some (cap, rest) ->
  length s = length (re_open re) + length cap + length (re_close re) + length rest.
Proof.
  unfold match_here. destruct (strip_prefix (re_open re) s) eqn:E; [|discriminate].
  intros H. apply lazy_until_length in H. apply strip_prefix_length in E. lia.
Qed.

Lemma regex_exec_length re s cap rest :
  regex_exec re s = Some (cap, rest) ->
  length (re_open re) + length (re_close re) + length rest <= length s.
Proof.
  induction s as [|c s IH]; simpl.
  - destruct (match_here re []) as [[cap' rest']|] eqn:E; [|discriminate].
    intros [= <- <-]. apply match_here_length in E. simpl in *; lia.
  - destruct (match_here re (c :: s)) as [[cap' rest']|] eqn:E.
    + intros [= <- <-]. apply match_here_length in E. simpl in *; lia.
    + intros H. specialize (IH H). lia.
Qed.

(* ===================================================================== *)
(** ** doWork *)
(* ===================================================================== *)

(** The inner loop, lines 73-81: every match of the sub-problem pattern in
    the task's content becomes a record.  [rest] is the content from the
    pattern's [lastIndex] on, [t] the number of clock reads so far. *)
Equations? sub_loop (now : Clock) (taskIndex : nat) (rest : jsstring)
  (subIndex t : nat) (subProblems : list SubProblem)
  : list SubProblem * nat by wf (length rest) lt :=
  sub_loop now taskIndex rest subIndex t subProblems
    with inspect (regex_exec subProblemRegex rest) := {
    | exist _ (Some (cap, rest')) Heq =>
        sub_loop now taskIndex rest' (S subIndex) (S t)
          (subProblems ++
           [ {| sp_id := sub_id (now t) taskIndex subIndex;
                sp_description := trim cap;
                sp_reasoning := generated_by_reflection |} ]);
    | exist _ None _ => (subProblems, t) }.
Proof.
  apply regex_exec_length in Heq. simpl in Heq. lia.
Qed.

(** The body of the outer loop, lines 54-92, for one matched block: an
    early return with a failure message, or the task to push and the
    number of clock reads made. *)
Definition task_body (now : Clock) (taskIndex t : nat) (taskContent : jsstring)
  : jsstring + TaskEntry * nat :=
  match str_match descRegex taskContent with
  | None => inl (msg_missing_description taskIndex)
  | Some descCap =>
      let description := trim descCap in
      let reasoning :=
        match str_match reasoningRegex taskContent with
        | Some reasoningCap => trim reasoningCap
        | None => generated_by_reflection
        end in
      let '(subProblems, t1) := sub_loop now taskIndex taskContent 0 t [] in
      match subProblems with
      | [] => inl (msg_missing_sub_problem taskIndex)
      | _ :: _ =>
          inr ({| id := task_id (now t1) taskIndex;
                  description := description;
                  reasoning := reasoning;
                  sub_problems := subProblems |}, S t1)
      end
  end.

(** Lines 97-104, after the outer loop. *)
Definition finish (newTasks : list TaskEntry) : ExecutionResult :=
  match newTasks with
  | [] => createFailureResult msg_no_valid_task
  | _ :: _ => createSuccessResult newTasks (length newTasks)
  end.

(** The outer loop, lines 53-95, followed by lines 97-104. *)
Equations? task_loop (now : Clock) (rest : jsstring) (taskIndex t : nat)
  (newTasks : list TaskEntry) : ExecutionResult by wf (length rest) lt :=
  task_loop now rest taskIndex t newTasks
    with inspect (regex_exec taskRegex rest) := {
    | exist _ (Some (taskContent, rest')) Heq
        with task_body now taskIndex t taskContent := {
        | inl msg => createFailureResult msg;
        | inr (task, t') =>
            task_loop now rest' (S taskIndex) t' (newTasks ++ [task]) };
    | exist _ None _ => finish newTasks }.
Proof.
  apply regex_exec_length in Heq. simpl in Heq. lia.
Qed.

(** [ReflectTool.doWork].  The execution context is not read.  Nothing in
    the [try] block can throw on a string (the searches, [trim] and [push]
    are total), so the [catch] clause has no counterpart.  Past the guard
    the parameter is a string; the last branch of the [match] is there for
    the typing only and is never taken. *)
Definition doWork (now : Clock) (parameters : Parameters) : ExecutionResult :=
  let newTasksParam := parameters "new_tasks" in
  if negb (truthy newTasksParam) ||
     negb (String.eqb (typeof newTasksParam) "string")
  then createFailureResult msg_requires_parameter
  else
    match newTasksParam with
    | JString payload => task_loop now payload 0 0 []
    | _ => createFailureResult msg_requires_parameter
    end.

(** A parameter record with only [new_tasks] set. *)
Definition with_new_tasks (v : JSValue) : Parameters :=
  fun key => if String.eqb key "new_tasks" then v else JUndefined.

(* ===================================================================== *)
(** ** What the specification calls a match, a block and a result *)
(* ===================================================================== *)

(** These notions are stated on the text alone, without the matcher:
    where a literal occurs, what the first lazy match of a pattern is and
    what the successive matches of a pattern are. *)

(** [pat] occurs in [s] at offset [j]. *)
Definition occurs_at (pat s : jsstring) (j : nat) : Prop :=
  exists u v, s = u ++ pat ++ v /\ length u = j.

(** In [u ++ pat] the literal [pat] occurs at the end and at no offset
    before: the occurrence that follows [u] is the first one. *)
Definition first_occurrence (pat u : jsstring) : Prop :=
  forall j, j < length u -> ~ occurs_at pat (u ++ pat) j.

(** [s] holds some opening tag followed, somewhere later, by a closing
    tag. *)
Definition contains_tag (re : tag_regex) (s : jsstring) : Prop :=
  exists pre cap rest, s = pre ++ re_open re ++ cap ++ re_close re ++ rest.

(** The first occurrence of the opening tag, then the shortest content up
    to a closing tag. *)
Definition first_match (re : tag_regex) (s pre cap rest : jsstring) : Prop :=
  s = pre ++ re_open re ++ cap ++ re_close re ++ rest /\
  first_occurrence (re_open re) pre /\
  first_occurrence (re_close re) cap.

(** The contents of the successive non-overlapping matches, left to
    right. *)
Inductive all_matches (re : tag_regex) : jsstring -> list jsstring -> Prop :=
| all_matches_nil s :
    ~ contains_tag re s -> all_matches re s []
| all_matches_cons s pre cap rest caps :
    first_match re s pre cap rest ->
    all_matches re rest caps ->
    all_matches re s (cap :: caps).

(** A block the payload grammar accepts: a description and at least one
    sub-problem. *)
Definition well_formed_block (block : jsstring) : Prop :=
  contains_tag descRegex block /\ contains_tag subProblemRegex block.

(** Every generated identifier of a result, tasks and sub-problems
    alike. *)
Definition all_ids (tasks : list TaskEntry) : list jsstring :=
  flat_map (fun task => id task :: map sp_id (sub_problems task)) tasks.

(** [r] is [s] without the white space at its two ends. *)
Definition stripped_of (s r : jsstring) : Prop :=
  exists l t,
    s = l ++ r ++ t /\
    forallb is_white_space l = true /\
    forallb is_white_space t = true /\
    (forall c r', r = c :: r' -> is_white_space c = false) /\
    (forall c r', r = r' ++ [c] -> is_white_space c = false).

(* ===================================================================== *)
(** ** The loops as functions of the list of matches *)
(* ===================================================================== *)

(** What the inner loop pushes for the captures [caps], from sub-index
    [subIndex] and clock read [t] on. *)
Fixpoint sub_records (now : Clock) (taskIndex subIndex t : nat)
  (caps : list jsstring) : list SubProblem :=
  match caps with
  | [] => []
  | cap :: caps' =>
      {| sp_id := sub_id (now t) taskIndex subIndex;
         sp_description := trim cap;
         sp_reasoning := generated_by_reflection |}
      :: sub_records now taskIndex (S subIndex) (S t) caps'
  end.

(** The outer loop run over the matched blocks: the first failure, or the
    tasks pushed. *)
Fixpoint collect (now : Clock) (taskIndex t : nat) (blocks : list jsstring)
  : jsstring + list TaskEntry :=
  match blocks with
  | [] => inr []
  | block :: blocks' =>
      match task_body now taskIndex t block with
      | inl msg => inl msg
      | inr (task, t') =>
          match collect now (S taskIndex) t' blocks' with
          | inl msg => inl msg
          | inr tasks => inr (task :: tasks)
          end
      end
  end.

(** The task a block yields when the clock has been read [t] times and
    the block's sub-problem captures are [subs]. *)
Definition task_of (now : Clock) (taskIndex t : nat) (block descCap : jsstring)
  (subs : list jsstring) : TaskEntry :=
  {| id := task_id (now (t + length subs)) taskIndex;
     description := trim descCap;
     reasoning :=
       match str_match reasoningRegex block with
       | Some reasoningCap => trim reasoningCap
       | None => generated_by_reflection
       end;
     sub_problems := sub_records now taskIndex 0 t subs |}.

(** What C7 says of one block and its task: each text of the task is the
    content captured by the corresponding first lazy match, without the
    white space at its two ends. *)
Definition fields_trimmed (block : jsstring) (task : TaskEntry) : Prop :=
  (forall pre cap rest,
      first_match descRegex block pre cap rest ->
      description task = trim cap /\ stripped_of cap (description task)) /\
  (forall pre cap rest,
      first_match reasoningRegex block pre cap rest ->
      reasoning task = trim cap /\ stripped_of cap (reasoning task)) /\
  (forall subs,
      all_matches subProblemRegex block subs ->
      Forall2
        (fun cap sp =>
           sp_description sp = trim cap /\ stripped_of cap (sp_description sp))
        subs (sub_problems task)).

(** What C9 says of one block and its task: wherever the block is
    [pre], a description tag, [later], with no earlier opening tag in
    [pre] and no earlier closing tag in the content, the description is
    that content trimmed, whatever [later] holds; and the same for the
    reasoning tag. *)
Definition first_tags_used (block : jsstring) (task : TaskEntry) : Prop :=
  (forall pre cap later,
      block = pre ++ re_open descRegex ++ cap ++ re_close descRegex ++ later ->
      first_occurrence (re_open descRegex) pre ->
      first_occurrence (re_close descRegex) cap ->
      description task = trim cap) /\
  (forall pre cap later,
      block = pre ++ re_open reasoningRegex ++ cap ++ re_close reasoningRegex ++ later ->
      first_occurrence (re_open reasoningRegex) pre ->
      first_occurrence (re_close reasoningRegex) cap ->
      reasoning task = trim cap).

(** The code unit of the underscore, which separates the parts of an
    identifier. *)
Definition underscore : code_unit := 95%N.

(* ===================================================================== *)
(** ** Blocks written from their sub-elements *)
(* ===================================================================== *)

(** The code unit of the opening angle bracket. *)
Definition lt_sign : code_unit := 60%N.

(** A text without an angle bracket, hence without a tag. *)
Definition plain (text : jsstring) : Prop :=
  Forall (fun c => c <> lt_sign) text.

(** The three kinds of tags a block is searched for. *)
Inductive kind := KDescription | KReasoning | KSubProblem.

Definition kind_eqb (k k' : kind) : bool :=
  match k, k' with
  | KDescription, KDescription
  | KReasoning, KReasoning
  | KSubProblem, KSubProblem => true
  | _, _ => false
  end.

(** The pattern the source uses for a kind of tag. *)
Definition regex_of (k : kind) : tag_regex :=
  match k with
  | KDescription => descRegex
  | KReasoning => reasoningRegex
  | KSubProblem => subProblemRegex
  end.

(** A whole sub-element of a block: a tag with its content, or the text
    between two tags. *)
Inductive element :=
| Tag (k : kind) (text : jsstring)
| Text (text : jsstring).

(** [pat] occurs somewhere in [s]. *)
Definition occurs (pat s : jsstring) : Prop :=
  exists u v, s = u ++ pat ++ v.

(** The opening and closing literals of the three kinds of tags. *)
Definition tag_literals : list jsstring :=
  flat_map (fun k => [re_open (regex_of k); re_close (regex_of k)])
           [KDescription; KReasoning; KSubProblem].

(** A content in which no tag literal occurs; it may hold angle
    brackets. *)
Definition tag_free (text : jsstring) : Prop :=
  Forall (fun pat => ~ occurs pat text) tag_literals.

(** The content of a tag holds no tag of the block, and the text between
    two tags holds no angle bracket. *)
Definition whole_element (e : element) : Prop :=
  match e with
  | Tag _ text => tag_free text
  | Text text => plain text
  end.

(** A literal that starts with the angle bracket and has no other one. *)
Definition bracket_first (pat : jsstring) : bool :=
  match pat with
  | [] => false
  | c :: pat' =>
      N.eqb c lt_sign && forallb (fun x => negb (N.eqb x lt_sign)) pat'
  end.

(** The text of an element, and of a sequence of elements. *)
Definition render_element (e : element) : jsstring :=
  match e with
  | Tag k text => re_open (regex_of k) ++ text ++ re_close (regex_of k)
  | Text text => text
  end.

Definition render (els : list element) : jsstring :=
  flat_map render_element els.

(** The contents of the tags of kind [k], in their order. *)
Fixpoint texts_of (k : kind) (els : list element) : list jsstring :=
  match els with
  | [] => []
  | Tag k' text :: els' =>
      if kind_eqb k k' then text :: texts_of k els' else texts_of k els'
  | Text _ :: els' => texts_of k els'
  end.

(** The content of the first tag of kind [k], if there is one. *)
Definition first_of (k : kind) (els : list element) : option jsstring :=
  hd_error (texts_of k els).

(** Two literals differ at a position both have. *)
Fixpoint clash (p w : jsstring) : bool :=
  match p, w with
  | x :: p', y :: w' => if N.eqb x y then clash p' w' else true
  | _, _ => false
  end.

(** The literal [w] is not the opening of [re] and holds no angle bracket
    after its first code unit. *)
Definition foreign (re : tag_regex) (w : jsstring) : bool :=
  clash (re_open re) w &&
  forallb (fun c => negb (N.eqb c lt_sign)) (tl w).

(** A payload made of one block. *)
Definition task_payload (els : list element) : jsstring :=
  re_open taskRegex ++ render els ++ re_close taskRegex.

(* ===================================================================== *)
(** ** Inputs of the examples *)
(* ===================================================================== *)

(** A clock that stands still: every read returns the same time. *)
Definition example_clock : Clock := fun _ => 1700000000000%Z.

(** Two blocks with text between them; the second has its tags in
    another order than the grammar lists them. *)
Definition two_tasks : jsstring :=
  lit "<task><description> Write backstory </description>" ++
  lit "<sub_problem>Draft childhood</sub_problem>" ++
  lit "<sub_problem>Draft motivations</sub_problem></task> and " ++
  lit "<task><sub_problem>Pick a name</sub_problem>" ++
  lit "<reasoning>needed first</reasoning>" ++
  lit "<description>Name the hero</description></task>".

(** The contents of the two blocks of [two_tasks]. *)
Definition two_tasks_blocks : list jsstring :=
  [lit "<description> Write backstory </description>" ++
   lit "<sub_problem>Draft childhood</sub_problem>" ++
   lit "<sub_problem>Draft motivations</sub_problem>";
   lit "<sub_problem>Pick a name</sub_problem>" ++
   lit "<reasoning>needed first</reasoning>" ++
   lit "<description>Name the hero</description>"].

(** The tasks [doWork] returns for [two_tasks]. *)
Definition two_tasks_result : list TaskEntry :=
  Eval vm_compute in
    match doWork example_clock (with_new_tasks (JString two_tasks)) with
    | SuccessResult tasks _ => tasks
    | FailureResult _ => []
    end.

(** A payload whose first block lacks its sub-problems and whose second
    block lacks its description. *)
Definition no_subs_then_no_description : jsstring :=
  lit "<task><description>a</description></task>" ++
  lit "<task><sub_problem>b</sub_problem></task>".

(** A well-formed block, then a block without description. *)
Definition valid_then_no_description : jsstring :=
  lit "<task><description>a</description><sub_problem>b</sub_problem></task>" ++
  lit "<task><sub_problem>c</sub_problem></task>".

(** A payload whose first block lacks its description and whose second
    block lacks its sub-problems. *)
Definition no_description_then_no_subs : jsstring :=
  lit "<task><sub_problem>b</sub_problem></task>" ++
  lit "<task><description>a</description></task>".

(** A well-formed block, then a block without sub-problem. *)
Definition valid_then_no_subs : jsstring :=
  lit "<task><description>a</description><sub_problem>b</sub_problem></task>" ++
  lit "<task><description>c</description></task>".

(** A description that is white space only. *)
Definition blank_description : jsstring :=
  lit "<task><description>  </description><sub_problem> x  y </sub_problem></task>".

(** A block with two description tags and two reasoning tags. *)
Definition repeated_tags : jsstring :=
  lit "<task><reasoning>r1</reasoning><description> d1 </description>" ++
  lit "<description>d2</description><sub_problem>s</sub_problem>" ++
  lit "<reasoning>r2</reasoning></task>".

(** The tasks [doWork] returns for [repeated_tags]. *)
Definition repeated_tags_result : list TaskEntry :=
  Eval vm_compute in
    match doWork example_clock (with_new_tasks (JString repeated_tags)) with
    | SuccessResult tasks _ => tasks
    | FailureResult _ => []
    end.

(** Two blocks that differ by the exchange of their two sub-problem
    tags. *)
Definition subs_a_then_b : list element :=
  [Tag KDescription (lit "d"); Tag KSubProblem (lit "a"); Tag KSubProblem (lit "b")].

Definition subs_b_then_a : list element :=
  [Tag KDescription (lit "d"); Tag KSubProblem (lit "b"); Tag KSubProblem (lit "a")].

(** The same tags in two orders, the sub-problem tags keeping theirs. *)
Definition tags_in_grammar_order : list element :=
  [Text (lit " "); Tag KDescription (lit "Name the hero");
   Tag KReasoning (lit "needed first"); Text (lit " ");
   Tag KSubProblem (lit "Pick a name"); Tag KSubProblem (lit "Check 1 < 2")].

Definition tags_in_other_order : list element :=
  [Tag KSubProblem (lit "Pick a name"); Tag KReasoning (lit "needed first");
   Tag KSubProblem (lit "Check 1 < 2"); Tag KDescription (lit "Name the hero")].

(** The content of a well-formed block that precedes the one under
    study. *)
Definition first_block : jsstring :=
  lit "<description>a</description><sub_problem>b</sub_problem>".

(* ===================================================================== *)
(** ** Unfolding the loops *)
(* ===================================================================== *)

Lemma sub_loop_step now taskIndex rest subIndex t subProblems :
  sub_loop now taskIndex rest subIndex t subProblems =
  match regex_exec subProblemRegex rest with
  | Some (cap, rest') =>
      sub_loop now taskIndex rest' (S subIndex) (S t)
        (subProblems ++
         [ {| sp_id := sub_id (now t) taskIndex subIndex;
              sp_description := trim cap;
              sp_reasoning := generated_by_reflection |} ])
  | None => (subProblems, t)
  end.
Proof.
  simp sub_loop.
  destruct (inspect (regex_exec subProblemRegex rest)) as [[[cap rest']|] Heq];
    cbn; rewrite Heq; reflexivity.
Qed.

Lemma task_loop_step now rest taskIndex t newTasks :
  task_loop now rest taskIndex t newTasks =
  match regex_exec taskRegex rest with
  | Some (taskContent, rest') =>
      match task_body now taskIndex t taskContent with
      | inl msg => createFailureResult msg
      | inr (task, t') =>
          task_loop now rest' (S taskIndex) t' (newTasks ++ [task])
      end
  | None => finish newTasks
  end.
Proof.
  simp task_loop.
  destruct (inspect (regex_exec taskRegex rest)) as [[[cap rest']|] Heq]; cbn.
  - destruct (task_body now taskIndex t cap) as [msg|[task t']] eqn:E; cbn;
      rewrite Heq, E; reflexivity.
  - rewrite Heq; reflexivity.
Qed.

(* ===================================================================== *)
(** ** The matcher finds the first lazy match *)
(* ===================================================================== *)

Lemma strip_prefix_spec p s r : strip_prefix p s = Some r <-> s = p ++ r.
Proof.
  revert s; induction p as [|x p IH]; intros s; simpl.
  - split; [intros [= ->] | intros ->]; reflexivity.
  - destruct s as [|y s]; [split; discriminate|].
    destruct (N.eqb_spec x y) as [->|Hne].
    + rewrite IH. split; [intros ->; reflexivity | intros [= ->]; reflexivity].
    + split; [discriminate | intros [= e _]; congruence].
Qed.

Lemma strip_prefix_app p x v :
  length p <= length x ->
  strip_prefix p (x ++ v) = option_map (fun r => r ++ v) (strip_prefix p x).
Proof.
  revert x; induction p as [|a p IH]; intros x Hl; simpl; [reflexivity|].
  destruct x as [|y x]; simpl in *; [lia|].
  destruct (N.eqb a y); [apply IH; lia | reflexivity].
Qed.

Lemma lazy_until_eq close s :
  lazy_until close s =
  match strip_prefix close s with
  | Some rest => Some ([], rest)
  | None =>
      match s with
      | [] => None
      | c :: s' =>
          match lazy_until close s' with
          | Some (cap, rest) => Some (c :: cap, rest)
          | None => None
          end
      end
  end.
Proof. destruct s; reflexivity. Qed.

Lemma regex_exec_eq re s :
  regex_exec re s =
  match match_here re s with
  | Some r => Some r
  | None => match s with [] => None | _ :: s' => regex_exec re s' end
  end.
Proof. destruct s; reflexivity. Qed.

Lemma occurs_at_0 pat s : occurs_at pat s 0 <-> exists v, s = pat ++ v.
Proof.
  split.
  - intros (u & v & -> & Hl). destruct u; [|discriminate]. now exists v.
  - intros [v ->]. now exists [], v.
Qed.

Lemma occurs_at_S pat c s j : occurs_at pat (c :: s) (S j) <-> occurs_at pat s j.
Proof.
  split.
  - intros (u & v & E & Hl). destruct u as [|c' u]; [discriminate|].
    simpl in *. injection E as -> ->. exists u, v. split; [reflexivity | lia].
  - intros (u & v & -> & <-). now exists (c :: u), v.
Qed.

Lemma first_occurrence_nil pat : first_occurrence pat [].
Proof. intros j Hj. simpl in Hj. lia. Qed.

Lemma first_occurrence_cons pat c u :
  first_occurrence pat (c :: u) <->
  strip_prefix pat (c :: u ++ pat) = None /\ first_occurrence pat u.
Proof.
  split.
  - intros H. split.
    + destruct (strip_prefix pat (c :: u ++ pat)) as [v|] eqn:E; [|reflexivity].
      exfalso. apply (H 0); [simpl; lia|].
      apply occurs_at_0. exists v. now apply strip_prefix_spec.
    + intros j Hj Hocc. apply (H (S j)); [simpl; lia|].
      simpl. now apply occurs_at_S.
  - intros [H0 H] [|j] Hj Hocc.
    + apply occurs_at_0 in Hocc as [v Hv].
      apply strip_prefix_spec in Hv. simpl in Hv. congruence.
    + simpl in Hocc. apply occurs_at_S in Hocc.
      apply (H j); [simpl in Hj; lia | exact Hocc].
Qed.

Lemma strip_prefix_None_app pat c u v :
  strip_prefix pat (c :: u ++ pat) = None ->
  strip_prefix pat (c :: u ++ pat ++ v) = None.
Proof.
  intros H.
  change (c :: u ++ pat ++ v) with ((c :: u) ++ pat ++ v).
  rewrite app_assoc, strip_prefix_app.
  - simpl app. rewrite H. reflexivity.
  - rewrite length_app. lia.
Qed.

Lemma strip_prefix_extend v p x r :
  strip_prefix p x = Some r -> strip_prefix p (x ++ v) = Some (r ++ v).
Proof.
  intros H. apply strip_prefix_spec in H. subst.
  apply strip_prefix_spec. now rewrite app_assoc.
Qed.

Lemma lazy_until_app close u v : lazy_until close (u ++ close ++ v) <> None.
Proof.
  induction u as [|c u IH]; rewrite lazy_until_eq.
  - simpl app.
    destruct (strip_prefix close (close ++ v)) eqn:E; [discriminate|].
    assert (strip_prefix close (close ++ v) = Some v) by now apply strip_prefix_spec.
    congruence.
  - destruct (strip_prefix close ((c :: u) ++ close ++ v)); [discriminate|].
    simpl. destruct (lazy_until close (u ++ close ++ v)) as [[cap rest]|];
      [discriminate | contradiction].
Qed.

Lemma lazy_until_Some_spec close s cap rest :
  lazy_until close s = Some (cap, rest) <->
  s = cap ++ close ++ rest /\ first_occurrence close cap.
Proof.
  split.
  - revert cap; induction s as [|c s IH]; intros cap; rewrite lazy_until_eq.
    + destruct (strip_prefix close []) as [r|] eqn:E; [|discriminate].
      intros [= <- <-]. apply strip_prefix_spec in E.
      split; [exact E | apply first_occurrence_nil].
    + destruct (strip_prefix close (c :: s)) as [r|] eqn:E.
      * intros [= <- <-]. apply strip_prefix_spec in E.
        split; [exact E | apply first_occurrence_nil].
      * destruct (lazy_until close s) as [[cap' rest']|]; [|discriminate].
        intros [= <- <-]. destruct (IH _ eq_refl) as [-> Hfirst].
        split; [reflexivity|].
        apply first_occurrence_cons. split; [|exact Hfirst].
        destruct (strip_prefix close (c :: cap' ++ close)) as [v|] eqn:E';
          [|reflexivity].
        apply strip_prefix_spec in E'.
        assert (strip_prefix close (c :: cap' ++ close ++ rest') =
                Some (v ++ rest')) as E2.
        { apply strip_prefix_spec.
          change (c :: cap' ++ close ++ rest') with ((c :: cap') ++ close ++ rest').
          rewrite app_assoc. simpl app at 2. rewrite E'.
          now rewrite <- app_assoc. }
        congruence.
  - intros [-> Hfirst]. induction cap as [|c cap IH]; rewrite lazy_until_eq.
    + simpl app.
      assert (strip_prefix close (close ++ rest) = Some rest) as ->
          by now apply strip_prefix_spec.
      reflexivity.
    + apply first_occurrence_cons in Hfirst as [H0 Hfirst].
      simpl app. rewrite (strip_prefix_None_app _ _ _ rest H0).
      rewrite (IH Hfirst). reflexivity.
Qed.

Lemma regex_exec_Some_spec re s cap rest :
  regex_exec re s = Some (cap, rest) <-> exists pre, first_match re s pre cap rest.
Proof.
  split.
  - induction s as [|c s IH]; rewrite regex_exec_eq; unfold match_here.
    + destruct (strip_prefix (re_open re) []) as [s1|] eqn:E; [|discriminate].
      destruct (lazy_until (re_close re) s1) as [r|] eqn:E1; [|discriminate].
      intros [= ->]. apply strip_prefix_spec in E.
      apply lazy_until_Some_spec in E1 as [-> Hc].
      exists []. repeat split; [exact E | apply first_occurrence_nil | exact Hc].
    + destruct (strip_prefix (re_open re) (c :: s)) as [s1|] eqn:E.
      * destruct (lazy_until (re_close re) s1) as [r|] eqn:E1.
        -- intros [= ->]. apply strip_prefix_spec in E.
           apply lazy_until_Some_spec in E1 as [-> Hc].
           exists []. repeat split;
             [exact E | apply first_occurrence_nil | exact Hc].
        -- intros H. destruct (IH H) as (pre & -> & Ho & Hc).
           exfalso. apply strip_prefix_spec in E.
           destruct (strip_prefix (re_open re) (c :: pre ++ re_open re))
             as [v|] eqn:E'.
           ++ apply strip_prefix_spec in E'.
              assert (s1 = (v ++ cap) ++ re_close re ++ rest) as ->.
              { apply (app_inv_head (re_open re)). rewrite <- E.
                change (c :: pre ++ re_open re ++ cap ++ re_close re ++ rest)
                  with ((c :: pre) ++ re_open re ++ cap ++ re_close re ++ rest).
                rewrite app_assoc. simpl app at 2. rewrite E'.
                now rewrite <- !app_assoc. }
              now apply lazy_until_app in E1.
           ++ apply strip_prefix_None_app
                with (v := cap ++ re_close re ++ rest) in E'.
              assert (strip_prefix (re_open re)
                        (c :: pre ++ re_open re ++ cap ++ re_close re ++ rest)
                      = Some s1) by now apply strip_prefix_spec.
              congruence.
      * intros H. destruct (IH H) as (pre & -> & Ho & Hc).
        exists (c :: pre). repeat split; [|exact Hc].
        apply first_occurrence_cons. split; [|exact Ho].
        destruct (strip_prefix (re_open re) (c :: pre ++ re_open re)) eqn:E';
          [|reflexivity].
        exfalso.
        apply (strip_prefix_extend (cap ++ re_close re ++ rest)) in E'.
        simpl in E'. rewrite <- app_assoc in E'. congruence.
  - intros (pre & -> & Ho & Hc).
    induction pre as [|c pre IH]; rewrite regex_exec_eq; unfold match_here.
    + simpl app.
      assert (strip_prefix (re_open re)
                (re_open re ++ cap ++ re_close re ++ rest)
              = Some (cap ++ re_close re ++ rest)) as ->
          by now apply strip_prefix_spec.
      assert (lazy_until (re_close re) (cap ++ re_close re ++ rest)
              = Some (cap, rest)) as -> by now apply lazy_until_Some_spec.
      reflexivity.
    + apply first_occurrence_cons in Ho as [H0 Ho].
      simpl app. rewrite (strip_prefix_None_app _ _ _ _ H0).
      exact (IH Ho).
Qed.

Lemma regex_exec_None_spec re s :
  regex_exec re s = None <-> ~ contains_tag re s.
Proof.
  split.
  - intros H (pre & cap & rest & ->). revert H.
    induction pre as [|c pre IH]; rewrite regex_exec_eq; unfold match_here.
    + simpl app.
      assert (strip_prefix (re_open re)
                (re_open re ++ cap ++ re_close re ++ rest)
              = Some (cap ++ re_close re ++ rest)) as ->
          by now apply strip_prefix_spec.
      destruct (lazy_until (re_close re) (cap ++ re_close re ++ rest)) eqn:E;
        [discriminate|].
      now apply lazy_until_app in E.
    + simpl app.
      destruct (strip_prefix (re_open re)
                  (c :: pre ++ re_open re ++ cap ++ re_close re ++ rest))
        as [s1|];
        [destruct (lazy_until (re_close re) s1); [discriminate|] |]; exact IH.
  - intros H. destruct (regex_exec re s) as [[cap rest]|] eqn:E; [|reflexivity].
    exfalso. apply H. apply regex_exec_Some_spec in E as (pre & -> & _).
    now exists pre, cap, rest.
Qed.

Lemma all_matches_stop re s :
  regex_exec re s = None -> all_matches re s [].
Proof. intros H. apply all_matches_nil. now apply regex_exec_None_spec. Qed.

Lemma all_matches_step re s cap rest caps :
  regex_exec re s = Some (cap, rest) ->
  all_matches re rest caps ->
  all_matches re s (cap :: caps).
Proof.
  intros H Hrest. apply regex_exec_Some_spec in H as [pre H].
  eapply all_matches_cons; eassumption.
Qed.

Lemma first_match_contains re s pre cap rest :
  first_match re s pre cap rest -> contains_tag re s.
Proof. intros [-> _]. now exists pre, cap, rest. Qed.

(** Every text has its list of matches, whenever a match cannot be
    empty. *)
Lemma all_matches_total re s :
  re_open re <> [] -> exists caps, all_matches re s caps.
Proof.
  intros Hne.
  induction s as [s IH] using (well_founded_induction
                                 (Wf_nat.well_founded_ltof _ (@length code_unit))).
  destruct (regex_exec re s) as [[cap rest]|] eqn:E.
  - destruct (IH rest) as [caps Hcaps].
    + apply regex_exec_length in E. unfold Wf_nat.ltof.
      destruct (re_open re); [congruence | simpl in E; lia].
    + exists (cap :: caps). eapply all_matches_step; eassumption.
  - exists []. now apply all_matches_stop.
Qed.

Lemma all_matches_exec re s caps :
  all_matches re s caps ->
  match regex_exec re s with
  | None => caps = []
  | Some (cap, rest) =>
      exists caps', caps = cap :: caps' /\ all_matches re rest caps'
  end.
Proof.
  intros [s' Hno | s' pre cap rest caps' Hm Hrest].
  - apply regex_exec_None_spec in Hno. now rewrite Hno.
  - assert (regex_exec re s' = Some (cap, rest)) as ->
        by (apply regex_exec_Some_spec; now exists pre).
    now exists caps'.
Qed.

Lemma all_matches_unique re s caps1 caps2 :
  all_matches re s caps1 -> all_matches re s caps2 -> caps1 = caps2.
Proof.
  intros H1; revert caps2.
  induction H1 as [s Hno | s pre cap rest caps Hm Hrest IH]; intros caps2 H2;
    apply all_matches_exec in H2.
  - apply regex_exec_None_spec in Hno. now rewrite Hno in H2.
  - assert (regex_exec re s = Some (cap, rest)) as E
        by (apply regex_exec_Some_spec; now exists pre).
    rewrite E in H2. destruct H2 as (caps' & -> & H2).
    f_equal. now apply IH.
Qed.

Lemma all_matches_nil_iff re s caps :
  all_matches re s caps -> (caps = [] <-> ~ contains_tag re s).
Proof.
  intros [s' Hno | s' pre cap rest caps' Hm Hrest].
  - tauto.
  - split; [discriminate|]. intros H. exfalso. apply H.
    eapply first_match_contains; eassumption.
Qed.

(* ===================================================================== *)
(** ** The loops, over the list of matches *)
(* ===================================================================== *)

Lemma sub_loop_all_matches now taskIndex rest caps :
  all_matches subProblemRegex rest caps ->
  forall subIndex t subProblems,
    sub_loop now taskIndex rest subIndex t subProblems =
    (subProblems ++ sub_records now taskIndex subIndex t caps, t + length caps).
Proof.
  induction 1 as [s Hno | s pre cap rest caps Hm Hrest IH];
    intros subIndex t subProblems; rewrite sub_loop_step.
  - apply regex_exec_None_spec in Hno. rewrite Hno. simpl.
    now rewrite app_nil_r, Nat.add_0_r.
  - assert (regex_exec subProblemRegex s = Some (cap, rest)) as ->
        by (apply regex_exec_Some_spec; now exists pre).
    rewrite IH. simpl. rewrite <- app_assoc. simpl. f_equal. lia.
Qed.

Lemma task_loop_all_matches now rest blocks :
  all_matches taskRegex rest blocks ->
  forall taskIndex t newTasks,
    task_loop now rest taskIndex t newTasks =
    match collect now taskIndex t blocks with
    | inl msg => FailureResult msg
    | inr tasks => finish (newTasks ++ tasks)
    end.
Proof.
  induction 1 as [s Hno | s pre block rest blocks Hm Hrest IH];
    intros taskIndex t newTasks; rewrite task_loop_step.
  - apply regex_exec_None_spec in Hno. rewrite Hno. simpl.
    now rewrite app_nil_r.
  - assert (regex_exec taskRegex s = Some (block, rest)) as ->
        by (apply regex_exec_Some_spec; now exists pre).
    simpl. destruct (task_body now taskIndex t block) as [msg|[task t']];
      [reflexivity|].
    rewrite IH. destruct (collect now (S taskIndex) t' blocks); [reflexivity|].
    now rewrite <- app_assoc.
Qed.

(** [doWork] on a string that is not empty. *)
Lemma doWork_string now parameters payload blocks :
  parameters "new_tasks" = JString payload ->
  payload <> [] ->
  all_matches taskRegex payload blocks ->
  doWork now parameters =
  match collect now 0 0 blocks with
  | inl msg => FailureResult msg
  | inr tasks => finish tasks
  end.
Proof.
  intros Hp Hne Hall. unfold doWork. rewrite Hp.
  destruct payload as [|c payload]; [congruence|]. simpl.
  now rewrite (task_loop_all_matches now Hall).
Qed.

Lemma taskRegex_open_nonempty : re_open taskRegex <> [].
Proof. discriminate. Qed.

Lemma subProblemRegex_open_nonempty : re_open subProblemRegex <> [].
Proof. discriminate. Qed.

Lemma contains_tag_nonempty re s :
  re_open re <> [] -> contains_tag re s -> s <> [].
Proof.
  intros Hne (pre & cap & rest & ->) E.
  apply app_eq_nil in E as [_ E]. apply app_eq_nil in E as [E _]. auto.
Qed.

(** A payload that has a block is not the empty string. *)
Lemma payload_with_block_nonempty payload blocks :
  all_matches taskRegex payload blocks -> blocks <> [] -> payload <> [].
Proof.
  intros Hall Hne.
  apply (contains_tag_nonempty taskRegex_open_nonempty).
  destruct Hall as [s Hno | s pre cap rest caps Hm _];
    [congruence | eapply first_match_contains; eassumption].
Qed.

(* ===================================================================== *)
(** ** One block *)
(* ===================================================================== *)

Lemma str_match_Some re s cap :
  str_match re s = Some cap <-> exists pre rest, first_match re s pre cap rest.
Proof.
  unfold str_match. split.
  - destruct (regex_exec re s) as [[cap' rest]|] eqn:E; [|discriminate].
    intros [= <-]. apply regex_exec_Some_spec in E as [pre E]. now exists pre, rest.
  - intros (pre & rest & H).
    assert (regex_exec re s = Some (cap, rest)) as ->
        by (apply regex_exec_Some_spec; now exists pre).
    reflexivity.
Qed.

Lemma str_match_None re s : str_match re s = None <-> ~ contains_tag re s.
Proof.
  rewrite <- regex_exec_None_spec. unfold str_match.
  destruct (regex_exec re s); simpl; split; congruence.
Qed.

Lemma task_body_spec now taskIndex t block subs :
  all_matches subProblemRegex block subs ->
  task_body now taskIndex t block =
  match str_match descRegex block with
  | None => inl (msg_missing_description taskIndex)
  | Some descCap =>
      match subs with
      | [] => inl (msg_missing_sub_problem taskIndex)
      | _ :: _ =>
          inr (task_of now taskIndex t block descCap subs, S (t + length subs))
      end
  end.
Proof.
  intros Hall. unfold task_body.
  destruct (str_match descRegex block) as [descCap|]; [|reflexivity].
  rewrite (sub_loop_all_matches now taskIndex Hall). simpl app.
  destruct subs as [|cap subs]; reflexivity.
Qed.

Lemma task_body_no_description now taskIndex t block :
  ~ contains_tag descRegex block ->
  task_body now taskIndex t block = inl (msg_missing_description taskIndex).
Proof.
  intros H. apply str_match_None in H. unfold task_body. now rewrite H.
Qed.

Lemma task_body_no_sub_problem now taskIndex t block :
  contains_tag descRegex block ->
  ~ contains_tag subProblemRegex block ->
  task_body now taskIndex t block = inl (msg_missing_sub_problem taskIndex).
Proof.
  intros Hd Hs.
  rewrite (task_body_spec now taskIndex t (all_matches_nil Hs)).
  destruct (str_match descRegex block) eqn:E; [reflexivity|].
  apply str_match_None in E. contradiction.
Qed.

Lemma task_body_well_formed now taskIndex t block :
  well_formed_block block ->
  exists descCap subs,
    str_match descRegex block = Some descCap /\
    all_matches subProblemRegex block subs /\
    subs <> [] /\
    task_body now taskIndex t block =
    inr (task_of now taskIndex t block descCap subs, S (t + length subs)).
Proof.
  intros [Hd Hs].
  destruct (@all_matches_total subProblemRegex block subProblemRegex_open_nonempty) as [subs Hall].
  destruct (str_match descRegex block) as [descCap|] eqn:E;
    [|apply str_match_None in E; contradiction].
  exists descCap, subs.
  assert (subs <> []) as Hne
      by (intros ->; now apply (all_matches_nil_iff Hall)).
  repeat split; try assumption.
  rewrite (task_body_spec now taskIndex t Hall), E.
  destruct subs; [congruence | reflexivity].
Qed.

Lemma task_body_inr now taskIndex t block task t' :
  task_body now taskIndex t block = inr (task, t') ->
  exists descCap subs,
    str_match descRegex block = Some descCap /\
    all_matches subProblemRegex block subs /\
    subs <> [] /\
    task = task_of now taskIndex t block descCap subs /\
    t' = S (t + length subs).
Proof.
  destruct (@all_matches_total subProblemRegex block subProblemRegex_open_nonempty) as [subs Hall].
  rewrite (task_body_spec now taskIndex t Hall).
  destruct (str_match descRegex block) as [descCap|]; [|discriminate].
  destruct subs as [|cap subs]; [discriminate|].
  intros [= <- <-]. exists descCap, (cap :: subs).
  repeat split; [assumption | discriminate].
Qed.

Lemma task_body_inr_well_formed now taskIndex t block task t' :
  task_body now taskIndex t block = inr (task, t') -> well_formed_block block.
Proof.
  intros H. apply task_body_inr in H as (d & subs & Hd & Hall & Hne & _).
  split.
  - apply str_match_Some in Hd as (pre & rest & Hd).
    eapply first_match_contains; eassumption.
  - destruct (all_matches_nil_iff Hall) as [_ Hnil].
    destruct Hall as [s Hno | s pre cap rest caps Hm _];
      [congruence | eapply first_match_contains; eassumption].
Qed.

(* ===================================================================== *)
(** ** All blocks *)
(* ===================================================================== *)

Lemma collect_Forall2 now (P : jsstring -> TaskEntry -> Prop) :
  (forall taskIndex t block task t',
      task_body now taskIndex t block = inr (task, t') -> P block task) ->
  forall blocks taskIndex t tasks,
    collect now taskIndex t blocks = inr tasks -> Forall2 P blocks tasks.
Proof.
  intros HP. induction blocks as [|block blocks IH]; intros taskIndex t tasks; simpl.
  - intros [= <-]. constructor.
  - destruct (task_body now taskIndex t block) as [msg|[task t']] eqn:E;
      [discriminate|].
    destruct (collect now (S taskIndex) t' blocks) as [msg|tasks'] eqn:E';
      [discriminate|].
    intros [= <-]. constructor; [eapply HP | eapply IH]; eassumption.
Qed.

Lemma collect_well_formed now blocks :
  Forall well_formed_block blocks ->
  forall taskIndex t, exists tasks, collect now taskIndex t blocks = inr tasks.
Proof.
  induction 1 as [|block blocks Hb _ IH]; intros taskIndex t; simpl.
  - now exists [].
  - destruct (task_body_well_formed now taskIndex t Hb)
      as (d & subs & _ & _ & _ & ->).
    destruct (IH (S taskIndex) (S (t + length subs))) as [tasks ->].
    now eexists.
Qed.

(** The first block that is not well formed decides the failure. *)
Lemma collect_first_failure now valid block blocks msg :
  Forall well_formed_block valid ->
  (forall taskIndex t, task_body now taskIndex t block = inl (msg taskIndex)) ->
  forall taskIndex t,
    collect now taskIndex t (valid ++ block :: blocks) =
    inl (msg (taskIndex + length valid)).
Proof.
  intros Hvalid Hfail.
  induction Hvalid as [|b valid Hb _ IH]; intros taskIndex t; simpl.
  - now rewrite Hfail, Nat.add_0_r.
  - destruct (task_body_well_formed now taskIndex t Hb)
      as (d & subs & _ & _ & _ & ->).
    rewrite IH. f_equal. f_equal. lia.
Qed.

Lemma collect_some_failure now blocks block :
  In block blocks ->
  ~ well_formed_block block ->
  forall taskIndex t, exists msg, collect now taskIndex t blocks = inl msg.
Proof.
  intros Hin Hbad.
  induction blocks as [|b blocks IH]; intros taskIndex t; simpl; [contradiction|].
  destruct (task_body now taskIndex t b) as [msg|[task t']] eqn:E;
    [now exists msg|].
  destruct Hin as [->|Hin].
  - apply task_body_inr_well_formed in E. contradiction.
  - destruct (IH Hin (S taskIndex) t') as [msg ->]. now exists msg.
Qed.

Lemma collect_length now blocks :
  forall taskIndex t tasks,
    collect now taskIndex t blocks = inr tasks -> length tasks = length blocks.
Proof.
  intros taskIndex t tasks H.
  apply (@collect_Forall2 now (fun _ _ => True)) in H; [|trivial].
  symmetry. eapply Forall2_length; eassumption.
Qed.

Lemma sub_records_length now taskIndex caps :
  forall subIndex t, length (sub_records now taskIndex subIndex t caps) = length caps.
Proof. induction caps; intros; simpl; [|rewrite IHcaps]; reflexivity. Qed.

Lemma sub_records_descriptions now taskIndex caps :
  forall subIndex t,
    map sp_description (sub_records now taskIndex subIndex t caps) = map trim caps.
Proof. induction caps; intros; simpl; [|rewrite IHcaps]; reflexivity. Qed.

Lemma sub_records_reasoning now taskIndex caps :
  forall subIndex t sp,
    In sp (sub_records now taskIndex subIndex t caps) ->
    sp_reasoning sp = generated_by_reflection.
Proof.
  induction caps as [|cap caps IH]; intros subIndex t sp; simpl; [contradiction|].
  intros [<-|Hin]; [reflexivity | eapply IH; eassumption].
Qed.

(* ===================================================================== *)
(** ** doWork as a whole *)
(* ===================================================================== *)

Lemma finish_success newTasks tasks n :
  finish newTasks = SuccessResult tasks n ->
  tasks = newTasks /\ n = length newTasks /\ newTasks <> [].
Proof.
  destruct newTasks; simpl; [discriminate|].
  intros [= <- <-]. repeat split. discriminate.
Qed.

(** A success comes from a string that is not empty, and its tasks are
    the ones the blocks yield. *)
Lemma doWork_success_inv now parameters tasks n :
  doWork now parameters = SuccessResult tasks n ->
  exists payload blocks,
    parameters "new_tasks" = JString payload /\
    payload <> [] /\
    all_matches taskRegex payload blocks /\
    collect now 0 0 blocks = inr tasks /\
    tasks <> [] /\ n = length tasks.
Proof.
  intros H.
  destruct (parameters "new_tasks") as [| |b|z|payload|] eqn:Hp;
    try (unfold doWork in H; rewrite Hp in H; simpl in H;
         repeat match type of H with
                | context [if ?c then _ else _] => destruct c
                end; discriminate).
  destruct payload as [|c payload];
    [unfold doWork in H; rewrite Hp in H; discriminate|].
  destruct (@all_matches_total taskRegex (c :: payload) taskRegex_open_nonempty)
    as [blocks Hall].
  rewrite (doWork_string now parameters Hp ltac:(discriminate) Hall) in H.
  destruct (collect now 0 0 blocks) as [msg|tasks'] eqn:E; [discriminate|].
  apply finish_success in H as (-> & -> & Hne).
  exists (c :: payload), blocks. repeat split; try assumption. discriminate.
Qed.

Lemma doWork_success_blocks now parameters payload blocks tasks n :
  parameters "new_tasks" = JString payload ->
  all_matches taskRegex payload blocks ->
  doWork now parameters = SuccessResult tasks n ->
  collect now 0 0 blocks = inr tasks /\ n = length blocks /\ blocks <> [].
Proof.
  intros Hp Hall H.
  destruct (doWork_success_inv _ _ H)
    as (payload' & blocks' & Hp' & Hne & Hall' & Hc & Ht & ->).
  rewrite Hp in Hp'. injection Hp' as <-.
  rewrite (all_matches_unique Hall Hall').
  split; [exact Hc|]. split; [eapply collect_length; eassumption|].
  intros ->. simpl in Hc. injection Hc as <-. congruence.
Qed.

Lemma doWork_well_formed now parameters payload blocks :
  parameters "new_tasks" = JString payload ->
  all_matches taskRegex payload blocks ->
  blocks <> [] ->
  Forall well_formed_block blocks ->
  exists tasks,
    collect now 0 0 blocks = inr tasks /\
    doWork now parameters = SuccessResult tasks (length blocks).
Proof.
  intros Hp Hall Hne Hwf.
  pose proof (payload_with_block_nonempty Hall Hne) as Hpay.
  destruct (collect_well_formed now Hwf 0 0) as [tasks Hc].
  exists tasks. split; [exact Hc|].
  rewrite (doWork_string now parameters Hp Hpay Hall), Hc.
  rewrite <- (collect_length _ _ _ _ Hc).
  destruct tasks; [|reflexivity].
  apply collect_length in Hc. destruct blocks; [congruence | discriminate].
Qed.

Lemma contains_tag_exec re s : regex_exec re s <> None -> contains_tag re s.
Proof.
  intros H. destruct (regex_exec re s) as [[cap rest]|] eqn:E; [|congruence].
  apply regex_exec_Some_spec in E as [pre E].
  eapply first_match_contains; eassumption.
Qed.

Lemma no_tag_exec re s : regex_exec re s = None -> ~ contains_tag re s.
Proof. apply regex_exec_None_spec. Qed.

(** Matches of a closed text, by evaluation of the matcher. *)
Ltac solve_all_matches :=
  repeat (eapply all_matches_step; [vm_compute; reflexivity|]);
  apply all_matches_stop; vm_compute; reflexivity.

Ltac solve_contains_tag :=
  apply contains_tag_exec; vm_compute; discriminate.

Ltac solve_no_tag :=
  apply no_tag_exec; vm_compute; reflexivity.

(* ===================================================================== *)
(** ** trim *)
(* ===================================================================== *)

Lemma trim_start_spec s :
  exists l, s = l ++ trim_start s /\ forallb is_white_space l = true.
Proof.
  induction s as [|c s (l & IH & Hl)]; simpl.
  - now exists [].
  - destruct (is_white_space c) eqn:E.
    + exists (c :: l). simpl. rewrite E, Hl. split; [now f_equal | reflexivity].
    + now exists [].
Qed.

Lemma trim_start_head s c r :
  trim_start s = c :: r -> is_white_space c = false.
Proof.
  induction s as [|x s IH]; simpl; [discriminate|].
  destruct (is_white_space x) eqn:E; [exact IH|].
  now intros [= <- _].
Qed.

Lemma forallb_rev {A} (f : A -> bool) l :
  forallb f l = true -> forallb f (rev l) = true.
Proof.
  intros H. apply forallb_forall. intros x Hx.
  apply in_rev in Hx. revert x Hx. now apply forallb_forall.
Qed.

Lemma trim_spec s : stripped_of s (trim s).
Proof.
  unfold trim, trim_end.
  destruct (trim_start_spec s) as (l & Hs & Hl).
  destruct (trim_start_spec (rev (trim_start s))) as (l2 & Hr & Hl2).
  set (a := trim_start s) in *. set (b := trim_start (rev a)) in *.
  assert (a = rev b ++ rev l2) as Ha.
  { rewrite <- (rev_involutive a), Hr, rev_app_distr. reflexivity. }
  exists l, (rev l2). repeat split.
  - now rewrite <- Ha.
  - exact Hl.
  - now apply forallb_rev.
  - intros c r' E. apply (trim_start_head s (r := r' ++ rev l2)).
    fold a. rewrite Ha, E. reflexivity.
  - intros c r' E. apply (trim_start_head (rev a) (r := rev r')).
    fold b. rewrite <- (rev_involutive b), E, rev_app_distr. reflexivity.
Qed.

Lemma trim_start_white s :
  forallb is_white_space s = true -> trim_start s = [].
Proof.
  induction s as [|c s IH]; simpl; [reflexivity|].
  destruct (is_white_space c); [exact IH | discriminate].
Qed.

Lemma trim_white s : forallb is_white_space s = true -> trim s = [].
Proof. intros H. unfold trim. now rewrite (trim_start_white _ H). Qed.

Lemma Forall2_right {A B} (Q : B -> Prop) (l : list A) (l' : list B) :
  Forall2 (fun _ y => Q y) l l' -> Forall Q l'.
Proof. induction 1; constructor; assumption. Qed.

Lemma sub_records_trimmed now taskIndex caps :
  forall subIndex t,
    Forall2
      (fun cap sp =>
         sp_description sp = trim cap /\ stripped_of cap (sp_description sp))
      caps (sub_records now taskIndex subIndex t caps).
Proof.
  induction caps as [|cap caps IH]; intros subIndex t; simpl; constructor.
  - simpl. split; [reflexivity | apply trim_spec].
  - apply IH.
Qed.

Lemma task_body_fields_trimmed now taskIndex t block task t' :
  task_body now taskIndex t block = inr (task, t') -> fields_trimmed block task.
Proof.
  intros Hbody.
  apply task_body_inr in Hbody as (d & subs & Hd & Hsubs & _ & -> & _).
  repeat split.
  - simpl. f_equal.
    assert (str_match descRegex block = Some cap) as E
        by (apply str_match_Some; eauto).
    congruence.
  - simpl.
    assert (str_match descRegex block = Some cap) as E
        by (apply str_match_Some; eauto).
    assert (d = cap) as -> by congruence. apply trim_spec.
  - simpl.
    assert (str_match reasoningRegex block = Some cap) as ->
        by (apply str_match_Some; eauto).
    reflexivity.
  - simpl.
    assert (str_match reasoningRegex block = Some cap) as ->
        by (apply str_match_Some; eauto).
    apply trim_spec.
  - intros subs' Hsubs'. simpl.
    rewrite (all_matches_unique Hsubs' Hsubs). apply sub_records_trimmed.
Qed.

(* ===================================================================== *)
(** ** Identifiers *)
(* ===================================================================== *)

Lemma lit_inj a b : lit a = lit b -> a = b.
Proof.
  unfold lit. intros H.
  rewrite <- (String.string_of_list_ascii_of_string a),
          <- (String.string_of_list_ascii_of_string b).
  f_equal. revert H.
  generalize (String.list_ascii_of_string a) (String.list_ascii_of_string b).
  induction l as [|x l IH]; intros [|y l']; simpl; try discriminate;
    [reflexivity|].
  intros [= Hxy Hl]. f_equal; [|now apply IH].
  now rewrite <- (ascii_N_embedding x), <- (ascii_N_embedding y), Hxy.
Qed.

Lemma string_of_uint_inj d d' :
  DecimalString.NilEmpty.string_of_uint d =
  DecimalString.NilEmpty.string_of_uint d' -> d = d'.
Proof.
  intros H. apply (f_equal DecimalString.NilEmpty.uint_of_string) in H.
  rewrite !DecimalString.NilEmpty.usu in H. now injection H.
Qed.

Lemma string_of_int_inj d d' :
  DecimalString.NilEmpty.string_of_int d =
  DecimalString.NilEmpty.string_of_int d' -> d = d'.
Proof.
  intros H. apply (f_equal DecimalString.NilEmpty.int_of_string) in H.
  rewrite !DecimalString.NilEmpty.isi in H. now injection H.
Qed.

Lemma string_of_nat_inj n m : string_of_nat n = string_of_nat m -> n = m.
Proof.
  intros H. apply DecimalNat.Unsigned.to_uint_inj, string_of_uint_inj, lit_inj, H.
Qed.

Lemma string_of_time_inj z z' : string_of_time z = string_of_time z' -> z = z'.
Proof.
  intros H. apply DecimalZ.to_int_inj, string_of_int_inj, lit_inj, H.
Qed.

Lemma digits_no_underscore d :
  Forall (fun c => c <> underscore) (lit (DecimalString.NilEmpty.string_of_uint d)).
Proof.
  induction d; simpl; constructor; try assumption; discriminate.
Qed.

Lemma string_of_nat_no_underscore n :
  Forall (fun c => c <> underscore) (string_of_nat n).
Proof. apply digits_no_underscore. Qed.

Lemma string_of_time_no_underscore z :
  Forall (fun c => c <> underscore) (string_of_time z).
Proof.
  unfold string_of_time. destruct (Z.to_int z) as [d|d]; simpl.
  - apply digits_no_underscore.
  - constructor; [discriminate | apply digits_no_underscore].
Qed.

(** Two texts cut at their first underscore agree part by part. *)
Lemma split_at_underscore a a' b b' :
  Forall (fun c => c <> underscore) a ->
  Forall (fun c => c <> underscore) a' ->
  a ++ underscore :: b = a' ++ underscore :: b' ->
  a = a' /\ b = b'.
Proof.
  intros Ha; revert a'.
  induction Ha as [|x a Hx Ha IH]; intros a' Ha'; destruct Ha' as [|y a' Hy Ha'];
    simpl; intros E.
  - injection E as E. now split.
  - injection E as E _. congruence.
  - injection E as E _. congruence.
  - injection E as E E'. subst y. destruct (IH a' Ha' E') as [-> ->]. now split.
Qed.

Lemma task_id_inj time time' i i' :
  task_id time i = task_id time' i' -> time = time' /\ i = i'.
Proof.
  unfold task_id. intros H. apply app_inv_head in H.
  apply split_at_underscore in H as [Ht Hi];
    try apply string_of_time_no_underscore.
  split; [now apply string_of_time_inj | now apply string_of_nat_inj].
Qed.

Lemma sub_id_inj time time' i i' j j' :
  sub_id time i j = sub_id time' i' j' -> time = time' /\ i = i' /\ j = j'.
Proof.
  unfold sub_id. intros H. apply app_inv_head in H.
  apply split_at_underscore in H as [Ht H];
    try apply string_of_time_no_underscore.
  apply split_at_underscore in H as [Hi Hj];
    try apply string_of_nat_no_underscore.
  repeat split;
    [now apply string_of_time_inj | now apply string_of_nat_inj ..].
Qed.

Lemma task_id_not_sub_id time time' i i' j' :
  task_id time i <> sub_id time' i' j'.
Proof. unfold task_id, sub_id. simpl. discriminate. Qed.

Lemma sub_records_ids_in now taskIndex caps :
  forall subIndex t x,
    In x (map sp_id (sub_records now taskIndex subIndex t caps)) ->
    exists time j, subIndex <= j /\ x = sub_id time taskIndex j.
Proof.
  induction caps as [|cap caps IH]; intros subIndex t x; simpl; [contradiction|].
  intros [<-|Hin].
  - now exists (now t), subIndex.
  - destruct (IH _ _ _ Hin) as (time & j & Hj & ->).
    exists time, j. split; [lia | reflexivity].
Qed.

Lemma sub_records_ids_NoDup now taskIndex caps :
  forall subIndex t,
    NoDup (map sp_id (sub_records now taskIndex subIndex t caps)).
Proof.
  induction caps as [|cap caps IH]; intros subIndex t; simpl; constructor.
  - intros Hin. apply sub_records_ids_in in Hin as (time & j & Hj & E).
    apply sub_id_inj in E as (_ & _ & ->). lia.
  - apply IH.
Qed.

(** The identifiers of the tasks pushed from task index [taskIndex] on
    name a task index that is at least [taskIndex]. *)
Lemma collect_ids_in now blocks :
  forall taskIndex t tasks x,
    collect now taskIndex t blocks = inr tasks ->
    In x (all_ids tasks) ->
    exists time i,
      taskIndex <= i /\ (x = task_id time i \/ exists j, x = sub_id time i j).
Proof.
  induction blocks as [|block blocks IH]; intros taskIndex t tasks x; simpl.
  - intros [= <-]. contradiction.
  - destruct (task_body now taskIndex t block) as [msg|[task t']] eqn:E;
      [discriminate|].
    destruct (collect now (S taskIndex) t' blocks) as [msg|tasks'] eqn:E';
      [discriminate|].
    intros [= <-]. simpl.
    apply task_body_inr in E as (d & subs & _ & _ & _ & -> & _). simpl.
    rewrite in_app_iff. intros [<-|[Hin|Hin]].
    + exists (now (t + length subs)), taskIndex. split; [lia | now left].
    + apply sub_records_ids_in in Hin as (time & j & _ & ->).
      exists time, taskIndex. split; [lia | right; now exists j].
    + destruct (IH _ _ _ _ E' Hin) as (time & i & Hi & Hx).
      exists time, i. split; [lia | exact Hx].
Qed.

Lemma collect_ids_NoDup now blocks :
  forall taskIndex t tasks,
    collect now taskIndex t blocks = inr tasks -> NoDup (all_ids tasks).
Proof.
  induction blocks as [|block blocks IH]; intros taskIndex t tasks; simpl.
  - intros [= <-]. constructor.
  - destruct (task_body now taskIndex t block) as [msg|[task t']] eqn:E;
      [discriminate|].
    destruct (collect now (S taskIndex) t' blocks) as [msg|tasks'] eqn:E';
      [discriminate|].
    intros [= <-].
    apply task_body_inr in E as (d & subs & _ & _ & _ & -> & _).
    change (all_ids (task_of now taskIndex t block d subs :: tasks'))
      with ((id (task_of now taskIndex t block d subs)
             :: map sp_id (sub_problems (task_of now taskIndex t block d subs)))
            ++ all_ids tasks').
    apply NoDup_app.
    + simpl. constructor; [|apply sub_records_ids_NoDup].
      intros Hin. apply sub_records_ids_in in Hin as (time & j & _ & Hx).
      now apply task_id_not_sub_id in Hx.
    + eapply IH; eassumption.
    + intros x Hx Hx'.
      destruct (@collect_ids_in _ _ _ _ _ _ E' Hx') as (time & i & Hi & Hi').
      simpl in Hx. destruct Hx as [<-|Hx].
      * destruct Hi' as [Hi'|[j Hi']].
        -- apply task_id_inj in Hi' as [_ ->]. lia.
        -- now apply task_id_not_sub_id in Hi'.
      * apply sub_records_ids_in in Hx as (time' & j' & _ & ->).
        destruct Hi' as [Hi'|[j Hi']].
        -- symmetry in Hi'. now apply task_id_not_sub_id in Hi'.
        -- apply sub_id_inj in Hi' as (_ & -> & _). lia.
Qed.

(* ===================================================================== *)
(** ** Blocks written from their elements *)
(* ===================================================================== *)

Lemma strip_prefix_clash p w s :
  clash p w = true -> strip_prefix p (w ++ s) = None.
Proof.
  revert w; induction p as [|x p IH]; intros [|y w]; simpl; try discriminate.
  destruct (N.eqb x y); [apply IH | reflexivity].
Qed.

Lemma strip_prefix_plain_head p c s :
  hd_error p = Some lt_sign -> c <> lt_sign -> strip_prefix p (c :: s) = None.
Proof.
  destruct p as [|x p]; simpl; [discriminate|]. intros [= ->] Hc.
  destruct (N.eqb_spec lt_sign c); [congruence | reflexivity].
Qed.

Lemma regex_exec_skip_plain re u s :
  hd_error (re_open re) = Some lt_sign ->
  plain u ->
  regex_exec re (u ++ s) = regex_exec re s.
Proof.
  intros Ho. induction 1 as [|c u Hc Hu IH]; [reflexivity|].
  simpl app. rewrite regex_exec_eq. unfold match_here.
  now rewrite (@strip_prefix_plain_head _ c (u ++ s) Ho Hc).
Qed.

Lemma plain_forallb u :
  forallb (fun c => negb (N.eqb c lt_sign)) u = true -> plain u.
Proof.
  intros H. apply Forall_forall. intros c Hc.
  apply (proj1 (forallb_forall _ _) H) in Hc.
  destruct (N.eqb_spec c lt_sign); [discriminate | assumption].
Qed.

Lemma regex_exec_skip_literal re w s :
  hd_error (re_open re) = Some lt_sign ->
  foreign re w = true ->
  regex_exec re (w ++ s) = regex_exec re s.
Proof.
  intros Ho H. apply andb_prop in H as [Hclash Hplain].
  destruct w as [|c w]; [reflexivity|].
  rewrite regex_exec_eq. unfold match_here.
  rewrite (@strip_prefix_clash _ _ s Hclash). simpl.
  apply regex_exec_skip_plain; [exact Ho | now apply plain_forallb].
Qed.

Lemma not_occurs_lazy_until pat s : lazy_until pat s = None -> ~ occurs pat s.
Proof. intros H (u & v & ->). now apply lazy_until_app in H. Qed.

Lemma not_occurs_tail pat c u : ~ occurs pat (c :: u) -> ~ occurs pat u.
Proof. intros H (a & b & ->). apply H. now exists (c :: a), b. Qed.

Lemma bracket_first_spec pat :
  bracket_first pat = true -> exists pat', pat = lt_sign :: pat' /\ plain pat'.
Proof.
  destruct pat as [|c pat']; simpl; [discriminate|].
  intros H. apply andb_prop in H as [Hc Hplain].
  apply N.eqb_eq in Hc as ->. exists pat'. split; [reflexivity|].
  now apply plain_forallb.
Qed.

(** A text without angle bracket that starts [b ++ s], where [s] is
    empty or starts with an angle bracket, lies within [b]. *)
Lemma plain_prefix_within p b s r :
  plain p ->
  s = [] \/ hd_error s = Some lt_sign ->
  b ++ s = p ++ r ->
  exists r', b = p ++ r'.
Proof.
  intros Hp Hs; revert b.
  induction Hp as [|x p Hx Hp IH]; intros b E; [now exists b|].
  destruct b as [|y b]; simpl in E.
  - exfalso. destruct Hs as [->|Hs]; [discriminate|].
    rewrite E in Hs. simpl in Hs. congruence.
  - injection E as -> E. destruct (IH b E) as [r' ->]. now exists r'.
Qed.

(** A tag literal matched at the start of [b ++ s] occurs in [b]: it
    cannot run over into [s]. *)
Lemma literal_within pat b s r :
  bracket_first pat = true ->
  b <> [] ->
  s = [] \/ hd_error s = Some lt_sign ->
  strip_prefix pat (b ++ s) = Some r ->
  occurs pat b.
Proof.
  intros Hpat Hb Hs E.
  apply bracket_first_spec in Hpat as (pat' & -> & Hplain).
  apply strip_prefix_spec in E.
  destruct b as [|y b]; [congruence|]. simpl in E. injection E as -> E.
  destruct (@plain_prefix_within pat' b s r Hplain Hs E) as [r' ->].
  now exists [], r'.
Qed.

Lemma regex_exec_skip_free re u s :
  bracket_first (re_open re) = true ->
  ~ occurs (re_open re) u ->
  s = [] \/ hd_error s = Some lt_sign ->
  regex_exec re (u ++ s) = regex_exec re s.
Proof.
  intros Ho Hfree Hs. induction u as [|c u IH]; [reflexivity|].
  rewrite regex_exec_eq. unfold match_here.
  destruct (strip_prefix (re_open re) ((c :: u) ++ s)) as [r|] eqn:E.
  - exfalso. apply Hfree.
    apply (@literal_within _ (c :: u) s r Ho); [discriminate | assumption ..].
  - simpl. apply IH. eapply not_occurs_tail; eassumption.
Qed.

Lemma lazy_until_free close text s :
  bracket_first close = true ->
  ~ occurs close text ->
  lazy_until close (text ++ close ++ s) = Some (text, s).
Proof.
  intros Hc Hfree. induction text as [|c text IH]; rewrite lazy_until_eq.
  - simpl app.
    assert (strip_prefix close (close ++ s) = Some s) as ->
        by now apply strip_prefix_spec.
    reflexivity.
  - destruct (strip_prefix close ((c :: text) ++ close ++ s)) as [r|] eqn:E.
    + exfalso. apply Hfree.
      apply (@literal_within _ (c :: text) (close ++ s) r Hc);
        [discriminate | | assumption].
      right. destruct (@bracket_first_spec close Hc) as (close' & -> & _).
      reflexivity.
    + simpl. rewrite IH; [reflexivity|].
      eapply not_occurs_tail; eassumption.
Qed.

Lemma regex_exec_own_tag re text s :
  bracket_first (re_close re) = true ->
  ~ occurs (re_close re) text ->
  regex_exec re (re_open re ++ text ++ re_close re ++ s) = Some (text, s).
Proof.
  intros Hc Htext. rewrite regex_exec_eq. unfold match_here.
  assert (strip_prefix (re_open re) (re_open re ++ text ++ re_close re ++ s)
          = Some (text ++ re_close re ++ s)) as ->
      by now apply strip_prefix_spec.
  now rewrite (@lazy_until_free _ _ s Hc Htext).
Qed.

Lemma tag_free_kind k text :
  tag_free text ->
  ~ occurs (re_open (regex_of k)) text /\ ~ occurs (re_close (regex_of k)) text.
Proof.
  intros H.
  assert (forall pat, In pat tag_literals -> ~ occurs pat text) as Hin
      by now apply Forall_forall.
  split; apply Hin; destruct k; simpl; tauto.
Qed.

(** One search over a block that starts with the element [e]: the element
    is the match when it is a tag of the pattern's kind, and is passed
    over otherwise. *)
Lemma regex_exec_render_element k e s :
  whole_element e ->
  regex_exec (regex_of k) (render_element e ++ s) =
  match e with
  | Tag k' text =>
      if kind_eqb k k' then Some (text, s) else regex_exec (regex_of k) s
  | Text _ => regex_exec (regex_of k) s
  end.
Proof.
  assert (hd_error (re_open (regex_of k)) = Some lt_sign) as Ho
      by (destruct k; reflexivity).
  destruct e as [k' text|text]; simpl; intros Htext.
  - rewrite <- !app_assoc.
    destruct (@tag_free_kind k text Htext) as [Hopen Hclose].
    destruct (kind_eqb k k') eqn:E.
    + assert (k' = k) as -> by (destruct k, k'; (reflexivity || discriminate)).
      apply regex_exec_own_tag; [destruct k; reflexivity | assumption].
    + rewrite (@regex_exec_skip_literal (regex_of k) (re_open (regex_of k')) _ Ho)
        by (destruct k, k'; (reflexivity || discriminate)).
      rewrite (@regex_exec_skip_free (regex_of k) text);
        [| destruct k; reflexivity | assumption
         | right; destruct k'; reflexivity].
      apply (@regex_exec_skip_literal (regex_of k) (re_close (regex_of k')) s Ho).
      destruct k, k'; (reflexivity || discriminate).
  - now apply regex_exec_skip_plain.
Qed.

Lemma all_matches_exec_eq re s s' caps :
  regex_exec re s = regex_exec re s' ->
  all_matches re s' caps -> all_matches re s caps.
Proof.
  intros E H. apply all_matches_exec in H. rewrite <- E in H.
  destruct (regex_exec re s) as [[cap rest]|] eqn:E'.
  - destruct H as (caps' & -> & H). eapply all_matches_step; eassumption.
  - subst. now apply all_matches_stop.
Qed.

Lemma all_matches_render k els :
  Forall whole_element els ->
  all_matches (regex_of k) (render els) (texts_of k els).
Proof.
  induction 1 as [|e els He _ IH].
  - apply all_matches_stop. destruct k; reflexivity.
  - pose proof (@regex_exec_render_element k e (render els) He) as E.
    change (render_element e ++ render els) with (render (e :: els)) in E.
    destruct e as [k' text|text]; simpl texts_of.
    + destruct (kind_eqb k k').
      * eapply all_matches_step; eassumption.
      * eapply all_matches_exec_eq; eassumption.
    + eapply all_matches_exec_eq; eassumption.
Qed.

Lemma str_match_render k els :
  Forall whole_element els ->
  str_match (regex_of k) (render els) = first_of k els.
Proof.
  intros H. apply (@all_matches_render k els) in H.
  apply all_matches_exec in H. unfold str_match, first_of.
  destruct (regex_exec (regex_of k) (render els)) as [[cap rest]|].
  - destruct H as (caps & -> & _). reflexivity.
  - now rewrite H.
Qed.

(** The outcome for a block written from [els] is decided by its first
    description, its first reasoning and its sub-problems in order. *)
Lemma task_body_render now taskIndex t els :
  Forall whole_element els ->
  task_body now taskIndex t (render els) =
  match first_of KDescription els with
  | None => inl (msg_missing_description taskIndex)
  | Some descCap =>
      match texts_of KSubProblem els with
      | [] => inl (msg_missing_sub_problem taskIndex)
      | subs =>
          inr ({| id := task_id (now (t + length subs)) taskIndex;
                  description := trim descCap;
                  reasoning :=
                    match first_of KReasoning els with
                    | Some reasoningCap => trim reasoningCap
                    | None => generated_by_reflection
                    end;
                  sub_problems := sub_records now taskIndex 0 t subs |},
               S (t + length subs))
      end
  end.
Proof.
  intros H.
  pose proof (@str_match_render KDescription els H) as Ed.
  pose proof (@str_match_render KReasoning els H) as Er.
  pose proof (@all_matches_render KSubProblem els H) as Es.
  simpl regex_of in Ed, Er, Es.
  rewrite (@task_body_spec now taskIndex t _ _ Es), Ed.
  destruct (first_of KDescription els); [|reflexivity].
  destruct (texts_of KSubProblem els); [reflexivity|].
  unfold task_of. now rewrite Er.
Qed.

Lemma collect_replace now before block1 block2 later :
  (forall taskIndex t,
      task_body now taskIndex t block1 = task_body now taskIndex t block2) ->
  forall taskIndex t,
    collect now taskIndex t (before ++ block1 :: later) =
    collect now taskIndex t (before ++ block2 :: later).
Proof.
  intros Hbody. induction before as [|b before IH]; intros taskIndex t; simpl.
  - now rewrite Hbody.
  - destruct (task_body now taskIndex t b) as [msg|[task t']]; [reflexivity|].
    now rewrite IH.
Qed.

(** A closed element is whole, by evaluation. *)
Ltac solve_whole_element :=
  match goal with
  | |- whole_element (Tag _ _) =>
      unfold whole_element, tag_free, tag_literals; simpl flat_map;
      repeat (constructor;
              [apply not_occurs_lazy_until; vm_compute; reflexivity|]);
      constructor
  | |- whole_element (Text _) =>
      apply plain_forallb; reflexivity
  end.

(* ===================================================================== *)
(** ** The examples of the specification *)
(* ===================================================================== *)

(** One task with two sub-problems and no reasoning tag. *)
Example backstory_example :
  doWork example_clock
    (with_new_tasks
       (JString
          (lit "<task><description>Write backstory</description>" ++
           lit "<sub_problem>Draft childhood</sub_problem>" ++
           lit "<sub_problem>Draft motivations</sub_problem></task>"))) =
  SuccessResult
    [ {| id := lit "reflect_task_1700000000000_0";
         description := lit "Write backstory";
         reasoning := lit "Generated by reflection";
         sub_problems :=
           [ {| sp_id := lit "reflect_sub_1700000000000_0_0";
                sp_description := lit "Draft childhood";
                sp_reasoning := lit "Generated by reflection" |};
             {| sp_id := lit "reflect_sub_1700000000000_0_1";
                sp_description := lit "Draft motivations";
                sp_reasoning := lit "Generated by reflection" |} ] |} ]
    1.
Proof. vm_compute. reflexivity. Qed.

(** A block without description. *)
Example missing_description_example :
  doWork example_clock
    (with_new_tasks (JString (lit "<task><sub_problem>x</sub_problem></task>"))) =
  FailureResult (lit "REFLECT tool: Task 1 must have a <description> element.").
Proof. vm_compute. reflexivity. Qed.

(** Two blocks, the second without sub-problem. *)
Example second_block_without_sub_problem_example :
  doWork example_clock (with_new_tasks (JString valid_then_no_subs)) =
  FailureResult
    (lit "REFLECT tool: Task 2 must have at least one <sub_problem> element.").
Proof. vm_compute. reflexivity. Qed.

(** No parameter at all, and a parameter that is not a string. *)
Example absent_parameter_example :
  doWork example_clock (fun _ => JUndefined) =
  FailureResult msg_requires_parameter /\
  doWork example_clock (with_new_tasks (JNumber 7)) =
  FailureResult msg_requires_parameter.
Proof. split; reflexivity. Qed.

(** A nested opening tag: the lazy match closes at the first closing
    tag, and the outer opening tag starts the block. *)
Example nested_task_example :
  regex_exec taskRegex (lit "<task>a<task>b</task>c</task>") =
  Some (lit "a<task>b", lit "c</task>").
Proof. vm_compute. reflexivity. Qed.

(** White space of the whole basic plane is trimmed, the inside kept. *)
Example trim_example :
  trim ([9; 160; 8232; 65279] ++ lit "a  b" ++ [12288; 10; 32])%N = lit "a  b".
Proof. vm_compute. reflexivity. Qed.

(* ===================================================================== *)
(** ** The claims *)
(* ===================================================================== *)

(** C1.  A payload whose task blocks (there is at least one, as the
    payload grammar demands) each hold a description tag and one or more
    sub-problem tags parses successfully: there is one task per block, in
    the order of the blocks (the task at a position has the description
    of the block at that position), [tasks_count] is the number of
    blocks, and the task of a block has one sub-problem per sub-problem
    tag of the block, in the order of the tags. *)
Theorem C1_well_formed_payload_parses now parameters payload blocks :
  parameters "new_tasks" = JString payload ->
  all_matches taskRegex payload blocks ->
  blocks <> [] ->
  Forall well_formed_block blocks ->
  exists tasks,
    doWork now parameters = SuccessResult tasks (length blocks) /\
    length tasks = length blocks /\
    Forall2
      (fun block task =>
         (forall pre cap rest,
             first_match descRegex block pre cap rest ->
             description task = trim cap) /\
         forall subs,
           all_matches subProblemRegex block subs ->
           1 <= length subs /\
           length (sub_problems task) = length subs /\
           map sp_description (sub_problems task) = map trim subs)
      blocks tasks.
Proof.
  intros Hp Hall Hne Hwf.
  destruct (doWork_well_formed now parameters Hp Hall Hne Hwf) as (tasks & Hc & Hrun).
  exists tasks. split; [exact Hrun|].
  split; [eapply collect_length; eassumption|].
  eapply collect_Forall2; [|exact Hc].
  intros taskIndex t block task t' Hbody. split.
  - intros pre cap rest Hm.
    apply task_body_fields_trimmed in Hbody as [Hd _].
    now destruct (Hd _ _ _ Hm).
  - intros subs Hsubs.
    apply task_body_inr in Hbody as (d & subs' & Hd & Hsubs' & Hne' & -> & _).
    rewrite (all_matches_unique Hsubs Hsubs'). simpl.
    rewrite sub_records_length, sub_records_descriptions.
    repeat split. destruct subs'; [congruence | simpl; lia].
Qed.

(** C1 at [two_tasks]: two blocks, of two and of one sub-problem. *)
Lemma C1_witness :
  exists tasks,
    doWork example_clock (with_new_tasks (JString two_tasks)) =
    SuccessResult tasks 2 /\
    length tasks = 2 /\
    Forall2
      (fun block task =>
         (forall pre cap rest,
             first_match descRegex block pre cap rest ->
             description task = trim cap) /\
         forall subs,
           all_matches subProblemRegex block subs ->
           1 <= length subs /\
           length (sub_problems task) = length subs /\
           map sp_description (sub_problems task) = map trim subs)
      two_tasks_blocks tasks.
Proof.
  apply (@C1_well_formed_payload_parses example_clock
           (with_new_tasks (JString two_tasks)) two_tasks two_tasks_blocks).
  - reflexivity.
  - solve_all_matches.
  - discriminate.
  - repeat constructor; solve_contains_tag.
Defined.

(** C2, as the specification states it, fails: on the empty string the
    result is the parameter-validation failure, not the failure for a
    payload without tasks. *)
Lemma C2_counterexample :
  doWork example_clock (with_new_tasks (JString (lit ""))) =
  FailureResult
    (lit "REFLECT tool requires 'new_tasks' parameter as a string with XML format.") /\
  doWork example_clock (with_new_tasks (JString (lit ""))) <>
  FailureResult
    (lit "REFLECT tool: No valid <task> elements found in new_tasks parameter.").
Proof. split; [reflexivity | discriminate]. Qed.

(** C2, amended.  The guard [!newTasksParam || typeof newTasksParam !==
    "string"] rejects, before any parsing, every value that is not a
    string with at least one code unit: an absent value, a value of
    another type, and the empty string alike fail with the
    parameter-validation message, which is not the message for a payload
    without tasks. *)
Theorem C2_empty_string_fails_parameter_validation now parameters :
  (forall payload, parameters "new_tasks" = JString payload -> payload = lit "") ->
  doWork now parameters = FailureResult msg_requires_parameter /\
  msg_requires_parameter <> msg_no_valid_task.
Proof.
  intros H. split; [|discriminate].
  unfold doWork.
  destruct (parameters "new_tasks") as [| |b|z|payload|]; try reflexivity.
  - destruct b; reflexivity.
  - simpl. destruct (Z.eqb z 0); reflexivity.
  - rewrite (H payload eq_refl). reflexivity.
Qed.

(** C2, amended, at the empty string. *)
Lemma C2_witness :
  doWork example_clock (with_new_tasks (JString (lit ""))) =
  FailureResult msg_requires_parameter /\
  msg_requires_parameter <> msg_no_valid_task.
Proof.
  apply (@C2_empty_string_fails_parameter_validation example_clock
           (with_new_tasks (JString (lit "")))).
  intros payload H. vm_compute in H. now injection H as <-.
Defined.

(** C3, as the specification states it, fails: the block at position 2
    has no description, yet the failure names task 1 and its missing
    sub-problems. *)
Lemma C3_counterexample :
  all_matches taskRegex no_subs_then_no_description
    [lit "<description>a</description>"; lit "<sub_problem>b</sub_problem>"] /\
  ~ contains_tag descRegex (lit "<sub_problem>b</sub_problem>") /\
  doWork example_clock (with_new_tasks (JString no_subs_then_no_description)) =
  FailureResult
    (lit "REFLECT tool: Task 1 must have at least one <sub_problem> element.") /\
  doWork example_clock (with_new_tasks (JString no_subs_then_no_description)) <>
  FailureResult (lit "REFLECT tool: Task 2 must have a <description> element.").
Proof.
  split; [solve_all_matches|]. split; [solve_no_tag|].
  split; [vm_compute; reflexivity | vm_compute; discriminate].
Qed.

(** C3, amended.  When some block of the payload has no description tag
    the parse fails as a whole: the result is a failure and carries no
    task.  The failure names position N and the missing description when
    that block is the first one that is not well formed, that is, when
    the N-1 blocks before it each have a description and a sub-problem. *)
Theorem C3_missing_description_fails now parameters payload before block later :
  parameters "new_tasks" = JString payload ->
  all_matches taskRegex payload (before ++ block :: later) ->
  ~ contains_tag descRegex block ->
  (exists msg, doWork now parameters = FailureResult msg) /\
  (Forall well_formed_block before ->
   doWork now parameters =
   FailureResult
     (lit "REFLECT tool: Task " ++ string_of_nat (length before + 1) ++
      lit " must have a <description> element.")).
Proof.
  intros Hp Hall Hno.
  assert (payload <> []) as Hpay
      by (apply (payload_with_block_nonempty Hall); now destruct before).
  rewrite (doWork_string now parameters Hp Hpay Hall).
  split.
  - destruct (@collect_some_failure now (before ++ block :: later) block) with
      (taskIndex := 0) (t := 0) as [msg ->].
    + apply in_elt.
    + now intros [Hd _].
    + now exists msg.
  - intros Hvalid.
    rewrite (@collect_first_failure now before block later
               msg_missing_description Hvalid).
    + reflexivity.
    + intros taskIndex t. now apply task_body_no_description.
Qed.

(** C3, amended, at a payload whose second block is the first one that
    is not well formed. *)
Lemma C3_witness :
  (exists msg,
      doWork example_clock (with_new_tasks (JString valid_then_no_description)) =
      FailureResult msg) /\
  doWork example_clock (with_new_tasks (JString valid_then_no_description)) =
  FailureResult (lit "REFLECT tool: Task 2 must have a <description> element.").
Proof.
  destruct (@C3_missing_description_fails example_clock
              (with_new_tasks (JString valid_then_no_description))
              valid_then_no_description
              [lit "<description>a</description><sub_problem>b</sub_problem>"]
              (lit "<sub_problem>c</sub_problem>") [])
    as [Hfail Hmsg].
  - reflexivity.
  - solve_all_matches.
  - solve_no_tag.
  - split; [exact Hfail|]. apply Hmsg.
    repeat constructor; solve_contains_tag.
Defined.

(** C4, as the specification states it, fails: the block at position 2
    has a description and no sub-problem, yet the failure names task 1
    and its missing description. *)
Lemma C4_counterexample :
  all_matches taskRegex no_description_then_no_subs
    [lit "<sub_problem>b</sub_problem>"; lit "<description>a</description>"] /\
  contains_tag descRegex (lit "<description>a</description>") /\
  ~ contains_tag subProblemRegex (lit "<description>a</description>") /\
  doWork example_clock (with_new_tasks (JString no_description_then_no_subs)) =
  FailureResult (lit "REFLECT tool: Task 1 must have a <description> element.") /\
  doWork example_clock (with_new_tasks (JString no_description_then_no_subs)) <>
  FailureResult
    (lit "REFLECT tool: Task 2 must have at least one <sub_problem> element.").
Proof.
  split; [solve_all_matches|]. split; [solve_contains_tag|].
  split; [solve_no_tag|].
  split; [vm_compute; reflexivity | vm_compute; discriminate].
Qed.

(** C4, amended.  When some block of the payload has a description tag
    and no sub-problem tag the parse fails as a whole: the result is a
    failure and carries no task.  The failure names position N and the
    missing sub-problem when that block is the first one that is not well
    formed, that is, when the N-1 blocks before it each have a
    description and a sub-problem. *)
Theorem C4_missing_sub_problem_fails now parameters payload before block later :
  parameters "new_tasks" = JString payload ->
  all_matches taskRegex payload (before ++ block :: later) ->
  contains_tag descRegex block ->
  ~ contains_tag subProblemRegex block ->
  (exists msg, doWork now parameters = FailureResult msg) /\
  (Forall well_formed_block before ->
   doWork now parameters =
   FailureResult
     (lit "REFLECT tool: Task " ++ string_of_nat (length before + 1) ++
      lit " must have at least one <sub_problem> element.")).
Proof.
  intros Hp Hall Hd Hno.
  assert (payload <> []) as Hpay
      by (apply (payload_with_block_nonempty Hall); now destruct before).
  rewrite (doWork_string now parameters Hp Hpay Hall).
  split.
  - destruct (@collect_some_failure now (before ++ block :: later) block) with
      (taskIndex := 0) (t := 0) as [msg ->].
    + apply in_elt.
    + now intros [_ Hs].
    + now exists msg.
  - intros Hvalid.
    rewrite (@collect_first_failure now before block later
               msg_missing_sub_problem Hvalid).
    + reflexivity.
    + intros taskIndex t. now apply task_body_no_sub_problem.
Qed.

(** C4, amended, at a payload whose second block is the first one that
    is not well formed. *)
Lemma C4_witness :
  (exists msg,
      doWork example_clock (with_new_tasks (JString valid_then_no_subs)) =
      FailureResult msg) /\
  doWork example_clock (with_new_tasks (JString valid_then_no_subs)) =
  FailureResult
    (lit "REFLECT tool: Task 2 must have at least one <sub_problem> element.").
Proof.
  destruct (@C4_missing_sub_problem_fails example_clock
              (with_new_tasks (JString valid_then_no_subs))
              valid_then_no_subs
              [lit "<description>a</description><sub_problem>b</sub_problem>"]
              (lit "<description>c</description>") [])
    as [Hfail Hmsg].
  - reflexivity.
  - solve_all_matches.
  - solve_contains_tag.
  - solve_no_tag.
  - split; [exact Hfail|]. apply Hmsg.
    repeat constructor; solve_contains_tag.
Defined.

(** C5.  A string that is not empty and in which no opening task tag is
    followed by a closing task tag fails with the message for a payload
    without tasks; it is not an empty success. *)
Theorem C5_no_task_block_fails now parameters payload :
  parameters "new_tasks" = JString payload ->
  payload <> lit "" ->
  ~ contains_tag taskRegex payload ->
  doWork now parameters =
  FailureResult
    (lit "REFLECT tool: No valid <task> elements found in new_tasks parameter.").
Proof.
  intros Hp Hne Hno.
  now rewrite (doWork_string now parameters Hp Hne (all_matches_nil Hno)).
Qed.

(** C5 at a payload with an opening task tag and no closing one. *)
Lemma C5_witness :
  doWork example_clock
    (with_new_tasks (JString (lit "<task>no closing tag <description>"))) =
  FailureResult
    (lit "REFLECT tool: No valid <task> elements found in new_tasks parameter.").
Proof.
  apply (@C5_no_task_block_fails example_clock
           (with_new_tasks (JString (lit "<task>no closing tag <description>")))
           (lit "<task>no closing tag <description>")).
  - reflexivity.
  - discriminate.
  - solve_no_tag.
Defined.

(** C6.  In every successful parse, the task of a block that has no
    reasoning tag has the reasoning "Generated by reflection", and every
    sub-problem of every task has that same reasoning, whatever the
    payload holds. *)
Theorem C6_placeholder_reasoning now parameters tasks n :
  doWork now parameters = SuccessResult tasks n ->
  (forall task sp,
      In task tasks -> In sp (sub_problems task) ->
      sp_reasoning sp = lit "Generated by reflection") /\
  (forall payload blocks,
      parameters "new_tasks" = JString payload ->
      all_matches taskRegex payload blocks ->
      Forall2
        (fun block task =>
           ~ contains_tag reasoningRegex block ->
           reasoning task = lit "Generated by reflection")
        blocks tasks).
Proof.
  intros H. split.
  - destruct (doWork_success_inv _ _ H) as (payload & blocks & _ & _ & _ & Hc & _).
    assert (Forall (fun task =>
                      forall sp, In sp (sub_problems task) ->
                                 sp_reasoning sp = generated_by_reflection)
                   tasks) as HF.
    { apply (@Forall2_right jsstring TaskEntry _ blocks).
      eapply collect_Forall2; [|exact Hc].
      intros taskIndex t block task t' Hbody sp.
      apply task_body_inr in Hbody as (d & subs & _ & _ & _ & -> & _).
      apply sub_records_reasoning. }
    intros task sp Htask.
    exact (proj1 (Forall_forall _ _) HF task Htask sp).
  - intros payload blocks Hp Hall.
    destruct (doWork_success_blocks now parameters Hp Hall H) as (Hc & _).
    eapply collect_Forall2; [|exact Hc].
    intros taskIndex t block task t' Hbody Hno.
    apply task_body_inr in Hbody as (d & subs & _ & _ & _ & -> & _).
    simpl. apply str_match_None in Hno. now rewrite Hno.
Qed.

(** C6 at the result for [two_tasks], whose first block has no
    reasoning tag. *)
Lemma C6_witness :
  (forall task sp,
      In task two_tasks_result -> In sp (sub_problems task) ->
      sp_reasoning sp = lit "Generated by reflection") /\
  (forall payload blocks,
      with_new_tasks (JString two_tasks) "new_tasks" = JString payload ->
      all_matches taskRegex payload blocks ->
      Forall2
        (fun block task =>
           ~ contains_tag reasoningRegex block ->
           reasoning task = lit "Generated by reflection")
        blocks two_tasks_result).
Proof.
  apply (@C6_placeholder_reasoning example_clock
           (with_new_tasks (JString two_tasks)) two_tasks_result 2).
  vm_compute. reflexivity.
Defined.

(** C7.  In every successful parse each description, each reasoning
    taken from a reasoning tag and each sub-problem description is the
    captured content without its leading and trailing white space, the
    inside left as it is.  A payload whose blocks are well formed is
    accepted whatever its description tags hold: a description that is
    all white space gives the empty description. *)
Theorem C7_fields_are_trimmed now parameters payload blocks :
  parameters "new_tasks" = JString payload ->
  all_matches taskRegex payload blocks ->
  (forall tasks n,
      doWork now parameters = SuccessResult tasks n ->
      Forall2 fields_trimmed blocks tasks) /\
  (blocks <> [] ->
   Forall well_formed_block blocks ->
   exists tasks,
     doWork now parameters = SuccessResult tasks (length blocks) /\
     Forall2
       (fun block task =>
          forall pre cap rest,
            first_match descRegex block pre cap rest ->
            forallb is_white_space cap = true ->
            description task = lit "")
       blocks tasks).
Proof.
  intros Hp Hall. split.
  - intros tasks n H.
    destruct (doWork_success_blocks now parameters Hp Hall H) as (Hc & _).
    eapply collect_Forall2; [|exact Hc].
    intros taskIndex t block task t'. apply task_body_fields_trimmed.
  - intros Hne Hwf.
    destruct (doWork_well_formed now parameters Hp Hall Hne Hwf)
      as (tasks & Hc & Hrun).
    exists tasks. split; [exact Hrun|].
    eapply collect_Forall2; [|exact Hc].
    intros taskIndex t block task t' Hbody pre cap rest Hm Hws.
    apply task_body_fields_trimmed in Hbody as [Hd _].
    destruct (Hd _ _ _ Hm) as [-> _]. now apply trim_white.
Qed.

(** C7 at a block whose description is white space only. *)
Lemma C7_witness :
  (forall tasks n,
      doWork example_clock (with_new_tasks (JString blank_description)) =
      SuccessResult tasks n ->
      Forall2 fields_trimmed
        [lit "<description>  </description><sub_problem> x  y </sub_problem>"]
        tasks) /\
  exists tasks,
    doWork example_clock (with_new_tasks (JString blank_description)) =
    SuccessResult tasks 1 /\
    Forall2
      (fun block task =>
         forall pre cap rest,
           first_match descRegex block pre cap rest ->
           forallb is_white_space cap = true ->
           description task = lit "")
      [lit "<description>  </description><sub_problem> x  y </sub_problem>"]
      tasks.
Proof.
  destruct (@C7_fields_are_trimmed example_clock
              (with_new_tasks (JString blank_description)) blank_description
              [lit "<description>  </description><sub_problem> x  y </sub_problem>"])
    as [Htrim Hblank].
  - reflexivity.
  - solve_all_matches.
  - split; [exact Htrim|]. apply Hblank.
    + discriminate.
    + repeat constructor; solve_contains_tag.
Defined.

(** C8.  In every successful parse the identifiers of all the tasks and
    of all their sub-problems are pairwise distinct, whatever the clock
    returns, the same time at every read included: the task index and the
    sub-index tell them apart. *)
Theorem C8_ids_are_distinct now parameters tasks n :
  doWork now parameters = SuccessResult tasks n ->
  NoDup (all_ids tasks).
Proof.
  intros H.
  destruct (doWork_success_inv _ _ H) as (payload & blocks & _ & _ & _ & Hc & _).
  eapply collect_ids_NoDup; eassumption.
Qed.

(** C8 at the result for [two_tasks], under a clock that stands
    still. *)
Lemma C8_witness : NoDup (all_ids two_tasks_result).
Proof.
  apply (@C8_ids_are_distinct example_clock
           (with_new_tasks (JString two_tasks)) two_tasks_result 2).
  vm_compute. reflexivity.
Defined.

(** C9.  In every successful parse the description and the reasoning of
    a task come from the first lazily matched description tag and
    reasoning tag of its block; what follows that first tag, further tags
    of the same name included, has no part in them. *)
Theorem C9_first_occurrence_is_used now parameters payload blocks tasks n :
  parameters "new_tasks" = JString payload ->
  all_matches taskRegex payload blocks ->
  doWork now parameters = SuccessResult tasks n ->
  Forall2 first_tags_used blocks tasks.
Proof.
  intros Hp Hall H.
  destruct (doWork_success_blocks now parameters Hp Hall H) as (Hc & _).
  eapply collect_Forall2; [|exact Hc].
  intros taskIndex t block task t' Hbody.
  apply task_body_fields_trimmed in Hbody as (Hd & Hr & _).
  split; intros pre cap later -> Ho Hcl.
  - apply (Hd pre cap later). repeat split; assumption.
  - apply (Hr pre cap later). repeat split; assumption.
Qed.

(** C9 at a block with two description tags and two reasoning tags. *)
Lemma C9_witness :
  Forall2 first_tags_used
    [lit "<reasoning>r1</reasoning><description> d1 </description>" ++
     lit "<description>d2</description><sub_problem>s</sub_problem>" ++
     lit "<reasoning>r2</reasoning>"]
    repeated_tags_result.
Proof.
  apply (@C9_first_occurrence_is_used example_clock
           (with_new_tasks (JString repeated_tags)) repeated_tags
           [lit "<reasoning>r1</reasoning><description> d1 </description>" ++
            lit "<description>d2</description><sub_problem>s</sub_problem>" ++
            lit "<reasoning>r2</reasoning>"]
           repeated_tags_result 1).
  - reflexivity.
  - solve_all_matches.
  - vm_compute. reflexivity.
Defined.

(** C10, as it is stated, fails: exchanging two sub-problem tags is a
    permutation of the whole sub-elements of the block, and the two
    results differ, the sub-problems being pushed in the order of their
    tags. *)
Lemma C10_counterexample :
  Permutation.Permutation subs_a_then_b subs_b_then_a /\
  doWork example_clock (with_new_tasks (JString (task_payload subs_a_then_b))) <>
  doWork example_clock (with_new_tasks (JString (task_payload subs_b_then_a))).
Proof.
  split.
  - apply Permutation.perm_skip, Permutation.perm_swap.
  - vm_compute. discriminate.
Qed.

(** C10, amended.  Two payloads that differ in one block only, written
    from whole sub-elements (tags whose content holds no tag literal, and
    text without angle bracket between them), give the same result,
    records and identifiers alike, as soon as the two versions of the
    block have the same first description, the same first reasoning and
    the same sub-problems in the same order: where the tags of one kind
    stand among the tags of the other kinds, and what text lies between
    the tags, has no effect. *)
Theorem C10_order_between_tag_kinds_is_irrelevant
  now parameters1 parameters2 payload1 payload2 before later els1 els2 :
  parameters1 "new_tasks" = JString payload1 ->
  parameters2 "new_tasks" = JString payload2 ->
  all_matches taskRegex payload1 (before ++ render els1 :: later) ->
  all_matches taskRegex payload2 (before ++ render els2 :: later) ->
  Forall whole_element els1 ->
  Forall whole_element els2 ->
  first_of KDescription els1 = first_of KDescription els2 ->
  first_of KReasoning els1 = first_of KReasoning els2 ->
  texts_of KSubProblem els1 = texts_of KSubProblem els2 ->
  doWork now parameters1 = doWork now parameters2.
Proof.
  intros Hp1 Hp2 Hall1 Hall2 Hplain1 Hplain2 Hd Hr Hs.
  assert (payload1 <> []) as Hpay1
      by (apply (payload_with_block_nonempty Hall1); now destruct before).
  assert (payload2 <> []) as Hpay2
      by (apply (payload_with_block_nonempty Hall2); now destruct before).
  rewrite (doWork_string now parameters1 Hp1 Hpay1 Hall1).
  rewrite (doWork_string now parameters2 Hp2 Hpay2 Hall2).
  rewrite (@collect_replace now before (render els1) (render els2) later);
    [reflexivity|].
  intros taskIndex t.
  rewrite !task_body_render by assumption.
  now rewrite Hd, Hr, Hs.
Qed.

(** C10, amended, at the second block of a payload, its tags in the
    order of the grammar and in another order. *)
Lemma C10_witness :
  doWork example_clock
    (with_new_tasks
       (JString (lit "<task>" ++ first_block ++ lit "</task>" ++
                 task_payload tags_in_grammar_order))) =
  doWork example_clock
    (with_new_tasks
       (JString (lit "<task>" ++ first_block ++ lit "</task>" ++
                 task_payload tags_in_other_order))).
Proof.
  apply (@C10_order_between_tag_kinds_is_irrelevant example_clock
           (with_new_tasks
              (JString (lit "<task>" ++ first_block ++ lit "</task>" ++
                        task_payload tags_in_grammar_order)))
           (with_new_tasks
              (JString (lit "<task>" ++ first_block ++ lit "</task>" ++
                        task_payload tags_in_other_order)))
           (lit "<task>" ++ first_block ++ lit "</task>" ++
            task_payload tags_in_grammar_order)
           (lit "<task>" ++ first_block ++ lit "</task>" ++
            task_payload tags_in_other_order)
           [first_block] []
           tags_in_grammar_order tags_in_other_order).
  - reflexivity.
  - reflexivity.
  - simpl app. solve_all_matches.
  - simpl app. solve_all_matches.
  - repeat (constructor; [solve_whole_element|]). constructor.
  - repeat (constructor; [solve_whole_element|]). constructor.
  - reflexivity.
  - reflexivity.
  - reflexivity.
Defined.


(* ===================================================================== *)
(** * Further properties of the code *)
(* ===================================================================== *)

(* ===================================================================== *)
(** ** The failure messages tell the failures apart *)
(* ===================================================================== *)

(** The code unit of the space. *)
Definition space : code_unit := 32%N.

Lemma digits_no_space d :
  Forall (fun c => c <> space) (lit (DecimalString.NilEmpty.string_of_uint d)).
Proof.
  induction d; simpl; constructor; try assumption; discriminate.
Qed.

(** Two texts cut at the first occurrence of a code unit agree part by
    part. *)
Lemma split_at_first (sep : code_unit) (a a' b b' : jsstring) :
  Forall (fun c => c <> sep) a ->
  Forall (fun c => c <> sep) a' ->
  a ++ sep :: b = a' ++ sep :: b' ->
  a = a' /\ b = b'.
Proof.
  intros Ha; revert a'.
  induction Ha as [|x a Hx Ha IH]; intros a' Ha'; destruct Ha' as [|y a' Hy Ha'];
    simpl; intros E.
  - injection E as E. now split.
  - injection E as E _. congruence.
  - injection E as E _. congruence.
  - injection E as E E'. subst y. destruct (IH a' Ha' E') as [-> ->]. now split.
Qed.

Lemma msg_missing_description_inj i j :
  msg_missing_description i = msg_missing_description j -> i = j.
Proof.
  unfold msg_missing_description. intros H. apply app_inv_head in H.
  apply (@split_at_first space) in H as [H _]; try apply digits_no_space.
  apply string_of_nat_inj in H. lia.
Qed.

Lemma msg_missing_sub_problem_inj i j :
  msg_missing_sub_problem i = msg_missing_sub_problem j -> i = j.
Proof.
  unfold msg_missing_sub_problem. intros H. apply app_inv_head in H.
  apply (@split_at_first space) in H as [H _]; try apply digits_no_space.
  apply string_of_nat_inj in H. lia.
Qed.

Lemma msg_description_not_sub_problem i j :
  msg_missing_description i <> msg_missing_sub_problem j.
Proof.
  unfold msg_missing_description, msg_missing_sub_problem. intros H.
  apply app_inv_head in H.
  apply (@split_at_first space) in H as [_ H]; try apply digits_no_space.
  discriminate.
Qed.

Lemma msg_requires_parameter_not_description i :
  msg_requires_parameter <> msg_missing_description i.
Proof. unfold msg_missing_description. simpl. discriminate. Qed.

Lemma msg_requires_parameter_not_sub_problem i :
  msg_requires_parameter <> msg_missing_sub_problem i.
Proof. unfold msg_missing_sub_problem. simpl. discriminate. Qed.

Lemma msg_no_valid_task_not_description i :
  msg_no_valid_task <> msg_missing_description i.
Proof. unfold msg_missing_description. simpl. discriminate. Qed.

Lemma msg_no_valid_task_not_sub_problem i :
  msg_no_valid_task <> msg_missing_sub_problem i.
Proof. unfold msg_missing_sub_problem. simpl. discriminate. Qed.

(* ===================================================================== *)
(** ** Every outcome and its cause *)
(* ===================================================================== *)

(** [block] is the first block of [blocks] that is not well formed, and
    stands at the zero-based position [k]. *)
Definition first_bad_block (blocks : list jsstring) (k : nat) (block : jsstring)
  : Prop :=
  exists before later,
    blocks = before ++ block :: later /\
    length before = k /\
    Forall well_formed_block before /\
    ~ well_formed_block block.

Lemma task_body_inl now taskIndex t block msg :
  task_body now taskIndex t block = inl msg ->
  (~ contains_tag descRegex block /\ msg = msg_missing_description taskIndex) \/
  (contains_tag descRegex block /\ ~ contains_tag subProblemRegex block /\
   msg = msg_missing_sub_problem taskIndex).
Proof.
  destruct (@all_matches_total subProblemRegex block subProblemRegex_open_nonempty)
    as [subs Hall].
  rewrite (task_body_spec now taskIndex t Hall).
  destruct (str_match descRegex block) as [d|] eqn:E.
  - destruct subs as [|cap subs]; [|discriminate].
    intros [= <-]. right. repeat split.
    + apply str_match_Some in E as (pre & rest & E).
      eapply first_match_contains; eassumption.
    + now apply (all_matches_nil_iff Hall).
  - intros [= <-]. left. split; [now apply str_match_None | reflexivity].
Qed.

(** A failure of the loop comes from the first block that is not well
    formed, and says what that block lacks. *)
Lemma collect_inl now blocks :
  forall taskIndex t msg,
    collect now taskIndex t blocks = inl msg ->
    exists k block,
      first_bad_block blocks k block /\
      ((~ contains_tag descRegex block /\
        msg = msg_missing_description (taskIndex + k)) \/
       (contains_tag descRegex block /\ ~ contains_tag subProblemRegex block /\
        msg = msg_missing_sub_problem (taskIndex + k))).
Proof.
  induction blocks as [|b blocks IH]; intros taskIndex t msg; simpl;
    [discriminate|].
  destruct (task_body now taskIndex t b) as [msg'|[task t']] eqn:E.
  - intros [= <-]. exists 0, b. split.
    + exists [], blocks. repeat split; [constructor|].
      intros [Hd Hs]. apply task_body_inl in E as [[E _]|(_ & E & _)];
        contradiction.
    + rewrite Nat.add_0_r. now apply task_body_inl in E.
  - destruct (collect now (S taskIndex) t' blocks) as [msg'|tasks] eqn:E';
      [|discriminate].
    intros [= <-].
    destruct (IH _ _ _ E') as (k & block & (before & later & -> & <- & Hv & Hb) & Hmsg).
    exists (S (length before)), block. split.
    + exists (b :: before), later. repeat split; try assumption.
      constructor; [|assumption]. eapply task_body_inr_well_formed; eassumption.
    + now rewrite Nat.add_succ_r.
Qed.

Lemma collect_inr_well_formed now blocks taskIndex t tasks :
  collect now taskIndex t blocks = inr tasks -> Forall well_formed_block blocks.
Proof.
  revert taskIndex t tasks.
  induction blocks as [|b blocks IH]; intros taskIndex t tasks; simpl;
    [constructor|].
  destruct (task_body now taskIndex t b) as [msg|[task t']] eqn:E;
    [discriminate|].
  destruct (collect now (S taskIndex) t' blocks) as [msg|tasks'] eqn:E';
    [discriminate|].
  intros _. constructor.
  - eapply task_body_inr_well_formed; eassumption.
  - eapply IH; eassumption.
Qed.

Lemma first_bad_block_unique blocks k block k' block' :
  first_bad_block blocks k block ->
  first_bad_block blocks k' block' ->
  k = k' /\ block = block'.
Proof.
  intros (before & later & -> & <- & Hv & Hb).
  revert k'. induction Hv as [|b before Hb0 Hv IH]; intros k';
    intros (before' & later' & E & <- & Hv' & Hb').
  - destruct Hv' as [|b' before' Hb0' Hv']; simpl in E.
    + injection E as -> _. now split.
    + injection E as -> _. contradiction.
  - destruct Hv' as [|b' before' Hb0' Hv']; simpl in E.
    + injection E as <- _. contradiction.
    + injection E as <- E.
      destruct (IH (length before')) as [Hk Hblock].
      * exists before', later'. repeat split; assumption.
      * split; [simpl; now rewrite Hk | exact Hblock].
Qed.

(** The whole of [doWork] on a string that is not empty, by the blocks
    of the string. *)
Lemma doWork_outcome now parameters payload blocks :
  parameters "new_tasks" = JString payload ->
  payload <> [] ->
  all_matches taskRegex payload blocks ->
  (blocks = [] /\ doWork now parameters = FailureResult msg_no_valid_task) \/
  (exists k block,
      first_bad_block blocks k block /\ ~ contains_tag descRegex block /\
      doWork now parameters = FailureResult (msg_missing_description k)) \/
  (exists k block,
      first_bad_block blocks k block /\ contains_tag descRegex block /\
      ~ contains_tag subProblemRegex block /\
      doWork now parameters = FailureResult (msg_missing_sub_problem k)) \/
  (blocks <> [] /\ Forall well_formed_block blocks /\
   exists tasks,
     collect now 0 0 blocks = inr tasks /\
     doWork now parameters = SuccessResult tasks (length blocks)).
Proof.
  intros Hp Hne Hall.
  rewrite (doWork_string now parameters Hp Hne Hall).
  destruct (collect now 0 0 blocks) as [msg|tasks] eqn:E.
  - apply collect_inl in E as (k & block & Hbad & [[Hd ->]|(Hd & Hs & ->)]).
    + right; left. now exists k, block.
    + right; right; left. now exists k, block.
  - destruct blocks as [|b blocks].
    + left. simpl in E. injection E as <-. now split.
    + right; right; right. split; [discriminate|].
      split; [eapply collect_inr_well_formed; eassumption|].
      exists tasks. split; [reflexivity|].
      rewrite <- (collect_length _ _ _ _ E).
      destruct tasks; [apply collect_length in E; discriminate | reflexivity].
Qed.

Lemma FailureResult_inj a b : FailureResult a = FailureResult b -> a = b.
Proof. now intros [= ->]. Qed.

Lemma doWork_guard now parameters :
  (forall payload, parameters "new_tasks" = JString payload -> payload = []) ->
  doWork now parameters = FailureResult msg_requires_parameter.
Proof.
  intros H. unfold doWork.
  destruct (parameters "new_tasks") as [| |b|z|payload|]; try reflexivity.
  - destruct b; reflexivity.
  - simpl. destruct (Z.eqb z 0); reflexivity.
  - rewrite (H payload eq_refl). reflexivity.
Qed.

Lemma all_matches_of_empty re blocks :
  re_open re <> [] -> all_matches re [] blocks -> blocks = [].
Proof.
  intros Hne H. apply (all_matches_nil_iff H).
  intros Hc. now apply (contains_tag_nonempty Hne) in Hc.
Qed.

Lemma no_first_bad_block_in_nil k block : ~ first_bad_block [] k block.
Proof. intros (before & later & E & _). now destruct before. Qed.

Lemma first_bad_block_not_all_well_formed blocks k block :
  first_bad_block blocks k block -> ~ Forall well_formed_block blocks.
Proof.
  intros (before & later & -> & _ & _ & Hb) H.
  apply Forall_app in H as [_ H]. inversion H. contradiction.
Qed.

(** X1.  A payload parses successfully exactly when it has at least one
    task block and each of its task blocks holds a description tag and a
    sub-problem tag. *)
Theorem X1_success_iff_blocks_well_formed now parameters payload blocks :
  parameters "new_tasks" = JString payload ->
  all_matches taskRegex payload blocks ->
  (exists tasks n, doWork now parameters = SuccessResult tasks n) <->
  blocks <> [] /\ Forall well_formed_block blocks.
Proof.
  intros Hp Hall. split.
  - intros (tasks & n & H).
    destruct (doWork_success_blocks now parameters Hp Hall H) as (Hc & _ & Hne).
    split; [exact Hne | eapply collect_inr_well_formed; eassumption].
  - intros [Hne Hwf].
    destruct (doWork_well_formed now parameters Hp Hall Hne Hwf) as (tasks & _ & H).
    now exists tasks, (length blocks).
Qed.

(** X1 at [two_tasks], whose two blocks are well formed. *)
Lemma X1_witness :
  (exists tasks n,
      doWork example_clock (with_new_tasks (JString two_tasks)) =
      SuccessResult tasks n) <->
  two_tasks_blocks <> [] /\ Forall well_formed_block two_tasks_blocks.
Proof.
  apply (@X1_success_iff_blocks_well_formed example_clock
           (with_new_tasks (JString two_tasks)) two_tasks two_tasks_blocks).
  - reflexivity.
  - solve_all_matches.
Defined.

(** X2.  A success is never empty: [tasks_count] is the number of tasks
    returned, it is at least one, and every task returned has at least
    one sub-problem. *)
Theorem X2_success_is_never_empty now parameters tasks n :
  doWork now parameters = SuccessResult tasks n ->
  n = length tasks /\ 1 <= n /\
  Forall (fun task => 1 <= length (sub_problems task)) tasks.
Proof.
  intros H.
  destruct (doWork_success_inv _ _ H)
    as (payload & blocks & _ & _ & _ & Hc & Hne & ->).
  split; [reflexivity|]. split; [destruct tasks; [congruence | simpl; lia]|].
  apply (@Forall2_right jsstring TaskEntry _ blocks).
  eapply collect_Forall2; [|exact Hc].
  intros taskIndex t block task t' Hbody.
  apply task_body_inr in Hbody as (d & subs & _ & _ & Hsubs & -> & _).
  simpl. rewrite sub_records_length. destruct subs; [congruence | simpl; lia].
Qed.

(** X2 at the result for [two_tasks]. *)
Lemma X2_witness :
  2 = length two_tasks_result /\ 1 <= 2 /\
  Forall (fun task => 1 <= length (sub_problems task)) two_tasks_result.
Proof.
  apply (@X2_success_is_never_empty example_clock
           (with_new_tasks (JString two_tasks)) two_tasks_result 2).
  vm_compute. reflexivity.
Defined.

(** X3.  The two failures for a block identify their cause: the failure
    is "Task k+1 must have a description" exactly when the first block
    that is not well formed stands at zero-based position k and has no
    description tag, and "Task k+1 must have at least one sub_problem"
    exactly when that block has a description tag and no sub-problem
    tag. *)
Theorem X3_block_failure_names_first_bad_block now parameters payload blocks k :
  parameters "new_tasks" = JString payload ->
  all_matches taskRegex payload blocks ->
  (doWork now parameters = FailureResult (msg_missing_description k) <->
   exists block,
     first_bad_block blocks k block /\ ~ contains_tag descRegex block) /\
  (doWork now parameters = FailureResult (msg_missing_sub_problem k) <->
   exists block,
     first_bad_block blocks k block /\ contains_tag descRegex block /\
     ~ contains_tag subProblemRegex block).
Proof.
  intros Hp Hall.
  destruct payload as [|c payload].
  - apply (all_matches_of_empty taskRegex_open_nonempty) in Hall as ->.
    rewrite (doWork_guard now parameters)
      by (intros payload' E; rewrite Hp in E; now injection E as <-).
    split; split.
    + intros E; apply FailureResult_inj in E. now apply msg_requires_parameter_not_description in E.
    + intros (block & Hbad & _). now apply no_first_bad_block_in_nil in Hbad.
    + intros E; apply FailureResult_inj in E. now apply msg_requires_parameter_not_sub_problem in E.
    + intros (block & Hbad & _). now apply no_first_bad_block_in_nil in Hbad.
  - destruct (@doWork_outcome now parameters (c :: payload) blocks Hp
                ltac:(discriminate) Hall)
      as [[-> ->]|[(k' & block & Hbad & Hd & ->)
                  |[(k' & block & Hbad & Hd & Hs & ->)
                   |(Hne & Hwf & tasks & _ & ->)]]].
    + split; split.
      * intros E; apply FailureResult_inj in E. now apply msg_no_valid_task_not_description in E.
      * intros (block & Hbad & _). now apply no_first_bad_block_in_nil in Hbad.
      * intros E; apply FailureResult_inj in E. now apply msg_no_valid_task_not_sub_problem in E.
      * intros (block & Hbad & _). now apply no_first_bad_block_in_nil in Hbad.
    + split; split.
      * intros E; apply FailureResult_inj in E. apply msg_missing_description_inj in E as ->.
        now exists block.
      * intros (block' & Hbad' & _).
        destruct (first_bad_block_unique Hbad Hbad') as [-> _]. reflexivity.
      * intros E; apply FailureResult_inj in E. now apply msg_description_not_sub_problem in E.
      * intros (block' & Hbad' & Hd' & _).
        destruct (first_bad_block_unique Hbad Hbad') as [_ ->]. contradiction.
    + split; split.
      * intros E; apply FailureResult_inj in E. symmetry in E.
        now apply msg_description_not_sub_problem in E.
      * intros (block' & Hbad' & Hd').
        destruct (first_bad_block_unique Hbad Hbad') as [_ ->]. contradiction.
      * intros E; apply FailureResult_inj in E. apply msg_missing_sub_problem_inj in E as ->.
        now exists block.
      * intros (block' & Hbad' & _).
        destruct (first_bad_block_unique Hbad Hbad') as [-> _]. reflexivity.
    + split; split; try discriminate;
        intros (block & Hbad & _);
        now apply first_bad_block_not_all_well_formed in Hbad.
Qed.

(** X3 at a payload whose second block is the first one that is not
    well formed. *)
Lemma X3_witness :
  (doWork example_clock (with_new_tasks (JString valid_then_no_subs)) =
   FailureResult (msg_missing_description 1) <->
   exists block,
     first_bad_block
       [first_block; lit "<description>c</description>"] 1 block /\
     ~ contains_tag descRegex block) /\
  (doWork example_clock (with_new_tasks (JString valid_then_no_subs)) =
   FailureResult (msg_missing_sub_problem 1) <->
   exists block,
     first_bad_block
       [first_block; lit "<description>c</description>"] 1 block /\
     contains_tag descRegex block /\
     ~ contains_tag subProblemRegex block).
Proof.
  apply (@X3_block_failure_names_first_bad_block example_clock
           (with_new_tasks (JString valid_then_no_subs)) valid_then_no_subs
           [first_block; lit "<description>c</description>"] 1).
  - reflexivity.
  - solve_all_matches.
Defined.

(** X4.  The parameter-validation failure is returned exactly when the
    value of [new_tasks] is not a string with at least one code unit: a
    string that is not empty never gets it, whatever it holds. *)
Theorem X4_parameter_failure_iff_not_a_nonempty_string now parameters :
  doWork now parameters = FailureResult msg_requires_parameter <->
  ~ exists payload, parameters "new_tasks" = JString payload /\ payload <> [].
Proof.
  split.
  - intros H (payload & Hp & Hne).
    destruct (@all_matches_total taskRegex payload taskRegex_open_nonempty)
      as [blocks Hall].
    destruct (@doWork_outcome now parameters payload blocks Hp Hne Hall)
      as [[_ E]|[(k & block & _ & _ & E)
                |[(k & block & _ & _ & _ & E)|(_ & _ & tasks & _ & E)]]];
      rewrite E in H; discriminate.
  - intros H. apply doWork_guard. intros payload Hp.
    destruct payload as [|c payload]; [reflexivity|].
    exfalso. apply H. exists (c :: payload). split; [exact Hp | discriminate].
Qed.

(** X5.  The failure for a payload without tasks is returned exactly
    when the value of [new_tasks] is a string that is not empty and in
    which no opening task tag is followed by a closing task tag. *)
Theorem X5_no_valid_task_iff_no_block now parameters :
  doWork now parameters = FailureResult msg_no_valid_task <->
  exists payload,
    parameters "new_tasks" = JString payload /\ payload <> [] /\
    ~ contains_tag taskRegex payload.
Proof.
  split.
  - intros H.
    destruct (parameters "new_tasks") as [| |b|z|payload|] eqn:Hp;
      try (rewrite (doWork_guard now parameters) in H
             by (intros payload' E; rewrite Hp in E; discriminate);
           discriminate).
    destruct payload as [|c payload].
    + rewrite (doWork_guard now parameters) in H
        by (intros payload' E; rewrite Hp in E; now injection E as <-).
      discriminate.
    + exists (c :: payload). split; [reflexivity|]. split; [discriminate|].
      destruct (@all_matches_total taskRegex (c :: payload) taskRegex_open_nonempty)
        as [blocks Hall].
      destruct (@doWork_outcome now parameters (c :: payload) blocks Hp
                  ltac:(discriminate) Hall)
        as [[-> _]|[(k & block & _ & _ & E)
                   |[(k & block & _ & _ & _ & E)|(_ & _ & tasks & _ & E)]]].
      * now apply (all_matches_nil_iff Hall).
      * rewrite E in H. apply FailureResult_inj in H. symmetry in H.
        now apply msg_no_valid_task_not_description in H.
      * rewrite E in H. apply FailureResult_inj in H. symmetry in H.
        now apply msg_no_valid_task_not_sub_problem in H.
      * rewrite E in H. discriminate.
  - intros (payload & Hp & Hne & Hno).
    now rewrite (doWork_string now parameters Hp Hne (all_matches_nil Hno)).
Qed.

(* ===================================================================== *)
(** ** Identifiers and clock reads *)
(* ===================================================================== *)

(** The number of clock reads made before the task at position [i] is
    begun: one per sub-problem and one per task, for the tasks before
    it. *)
Definition reads_before (tasks : list TaskEntry) (i : nat) : nat :=
  list_sum (map (fun task => S (length (sub_problems task))) (firstn i tasks)).

Lemma sub_records_nth now taskIndex caps :
  forall subIndex t j sp,
    nth_error (sub_records now taskIndex subIndex t caps) j = Some sp ->
    sp_id sp = sub_id (now (t + j)) taskIndex (subIndex + j).
Proof.
  induction caps as [|cap caps IH]; intros subIndex t [|j] sp; simpl;
    try discriminate.
  - intros [= <-]. simpl. now rewrite !Nat.add_0_r.
  - intros H. rewrite (IH _ _ _ _ H). f_equal; [f_equal|]; lia.
Qed.

Lemma collect_ids now blocks :
  forall taskIndex t tasks,
    collect now taskIndex t blocks = inr tasks ->
    forall i task,
      nth_error tasks i = Some task ->
      id task =
      task_id (now (t + reads_before tasks i + length (sub_problems task)))
              (taskIndex + i) /\
      forall j sp,
        nth_error (sub_problems task) j = Some sp ->
        sp_id sp = sub_id (now (t + reads_before tasks i + j)) (taskIndex + i) j.
Proof.
  induction blocks as [|block blocks IH]; intros taskIndex t tasks; simpl.
  - intros [= <-] [|i] task; discriminate.
  - destruct (task_body now taskIndex t block) as [msg|[task0 t']] eqn:E;
      [discriminate|].
    destruct (collect now (S taskIndex) t' blocks) as [msg|tasks'] eqn:E';
      [discriminate|].
    intros [= <-].
    apply task_body_inr in E as (d & subs & _ & _ & _ & -> & ->).
    intros [|i] task; simpl.
    + intros [= <-]. unfold reads_before. simpl.
      rewrite sub_records_length, !Nat.add_0_r. split; [reflexivity|].
      intros j sp Hsp. now apply sub_records_nth in Hsp.
    + intros Hnth. destruct (IH _ _ _ E' i task Hnth) as [Hid Hsub].
      assert (S (t + length subs) + reads_before tasks' i =
              t + reads_before (task_of now taskIndex t block d subs :: tasks') (S i))
        as Hreads.
      { unfold reads_before. simpl. rewrite sub_records_length. lia. }
      rewrite Hreads in Hid, Hsub.
      replace (taskIndex + S i) with (S taskIndex + i) by lia.
      split; [exact Hid | exact Hsub].
Qed.

(** X6.  In a success the task at zero-based position i has the
    identifier reflect_task_<time>_<i> and its sub-problem at position
    j the identifier reflect_sub_<time>_<i>_<j>.  The clock is read once
    per record, the sub-problems of a task first and in their order, then
    the task: the time in an identifier is the read whose number is the
    count of the records made before it. *)
Theorem X6_identifiers_by_position_and_clock_read now parameters tasks n :
  doWork now parameters = SuccessResult tasks n ->
  forall i task,
    nth_error tasks i = Some task ->
    id task =
    lit "reflect_task_" ++
    string_of_time (now (reads_before tasks i + length (sub_problems task))) ++
    lit "_" ++ string_of_nat i /\
    forall j sp,
      nth_error (sub_problems task) j = Some sp ->
      sp_id sp =
      lit "reflect_sub_" ++ string_of_time (now (reads_before tasks i + j)) ++
      lit "_" ++ string_of_nat i ++ lit "_" ++ string_of_nat j.
Proof.
  intros H i task Hnth.
  destruct (doWork_success_inv _ _ H) as (payload & blocks & _ & _ & _ & Hc & _).
  exact (@collect_ids now blocks 0 0 tasks Hc i task Hnth).
Qed.

(** A clock that counts its reads. *)
Definition counting_clock : Clock := fun k => Z.of_nat k.

(** The tasks [doWork] returns for [two_tasks] under the counting
    clock. *)
Definition two_tasks_counted : list TaskEntry :=
  Eval vm_compute in
    match doWork counting_clock (with_new_tasks (JString two_tasks)) with
    | SuccessResult tasks _ => tasks
    | FailureResult _ => []
    end.

(** X6 at [two_tasks] under the counting clock: the second task is made
    of the reads 3 and 4. *)
Lemma X6_witness :
  exists task,
    nth_error two_tasks_counted 1 = Some task /\
    id task = lit "reflect_task_4_1" /\
    exists sp,
      nth_error (sub_problems task) 0 = Some sp /\
      sp_id sp = lit "reflect_sub_3_1_0".
Proof.
  eexists. split; [reflexivity|].
  destruct (@X6_identifiers_by_position_and_clock_read counting_clock
              (with_new_tasks (JString two_tasks)) two_tasks_counted 2
              ltac:(vm_compute; reflexivity) 1 _ eq_refl)
    as [Hid Hsub].
  split; [exact Hid|].
  eexists. split; [reflexivity|]. exact (Hsub 0 _ eq_refl).
Defined.

(* ===================================================================== *)
(** ** The clock only shows in the identifiers *)
(* ===================================================================== *)

Definition sub_without_id (sp : SubProblem) : SubProblem :=
  {| sp_id := [];
     sp_description := sp_description sp;
     sp_reasoning := sp_reasoning sp |}.

Definition task_without_ids (task : TaskEntry) : TaskEntry :=
  {| id := [];
     description := description task;
     reasoning := reasoning task;
     sub_problems := map sub_without_id (sub_problems task) |}.

(** A result with every identifier blanked. *)
Definition without_ids (r : ExecutionResult) : ExecutionResult :=
  match r with
  | FailureResult msg => FailureResult msg
  | SuccessResult tasks n => SuccessResult (map task_without_ids tasks) n
  end.

Lemma sub_records_without_id now1 now2 taskIndex1 taskIndex2 caps :
  forall subIndex1 subIndex2 t1 t2,
    map sub_without_id (sub_records now1 taskIndex1 subIndex1 t1 caps) =
    map sub_without_id (sub_records now2 taskIndex2 subIndex2 t2 caps).
Proof.
  induction caps as [|cap caps IH]; intros; simpl; [reflexivity|].
  f_equal. apply IH.
Qed.

(** Two runs over the same blocks, whatever their clocks, their first
    task index and their count of reads: the same tasks but for the
    identifiers, or failures for the same block and the same lack. *)
Lemma collect_without_ids now1 now2 blocks :
  forall taskIndex1 taskIndex2 t1 t2,
    match collect now1 taskIndex1 t1 blocks,
          collect now2 taskIndex2 t2 blocks with
    | inr tasks1, inr tasks2 =>
        map task_without_ids tasks1 = map task_without_ids tasks2
    | inl _, inl _ => taskIndex1 = taskIndex2 ->
        collect now1 taskIndex1 t1 blocks = collect now2 taskIndex2 t2 blocks
    | _, _ => False
    end.
Proof.
  induction blocks as [|block blocks IH]; intros taskIndex1 taskIndex2 t1 t2;
    simpl; [reflexivity|].
  destruct (@all_matches_total subProblemRegex block subProblemRegex_open_nonempty)
    as [subs Hall].
  rewrite (task_body_spec now1 taskIndex1 t1 Hall),
          (task_body_spec now2 taskIndex2 t2 Hall).
  destruct (str_match descRegex block) as [d|]; [|now intros ->].
  destruct subs as [|cap subs]; [now intros ->|].
  specialize (IH (S taskIndex1) (S taskIndex2)
                 (S (t1 + length (cap :: subs))) (S (t2 + length (cap :: subs)))).
  destruct (collect now1 (S taskIndex1) (S (t1 + length (cap :: subs))) blocks),
           (collect now2 (S taskIndex2) (S (t2 + length (cap :: subs))) blocks);
    try contradiction.
  - intros ->. now rewrite IH.
  - simpl. f_equal; [|exact IH].
    unfold task_without_ids, task_of. simpl. f_equal. f_equal.
    apply sub_records_without_id.
Qed.

(** X7.  But for the identifiers, the result does not depend on the
    clock: two calls on the same parameters fail with the same message or
    succeed with the same count and the same descriptions, reasonings and
    sub-problems, whatever the clock returns in each. *)
Theorem X7_result_is_independent_of_the_clock_but_for_ids now1 now2 parameters :
  without_ids (doWork now1 parameters) = without_ids (doWork now2 parameters).
Proof.
  destruct (parameters "new_tasks") as [| |b|z|payload|] eqn:Hp;
    try (rewrite (doWork_guard now1 parameters), (doWork_guard now2 parameters)
           by (intros payload' E; rewrite Hp in E; discriminate);
         reflexivity).
  destruct payload as [|c payload].
  - rewrite (doWork_guard now1 parameters), (doWork_guard now2 parameters)
      by (intros payload' E; rewrite Hp in E; now injection E as <-).
    reflexivity.
  - destruct (@all_matches_total taskRegex (c :: payload) taskRegex_open_nonempty)
      as [blocks Hall].
    rewrite (doWork_string now1 parameters Hp ltac:(discriminate) Hall),
            (doWork_string now2 parameters Hp ltac:(discriminate) Hall).
    pose proof (collect_without_ids now1 now2 blocks 0 0 0 0) as H.
    destruct (collect now1 0 0 blocks) as [msg1|tasks1],
             (collect now2 0 0 blocks) as [msg2|tasks2]; try contradiction.
    + specialize (H eq_refl). injection H as ->. reflexivity.
    + destruct tasks1 as [|task1 tasks1], tasks2 as [|task2 tasks2];
        try discriminate; [reflexivity|].
      unfold finish, createSuccessResult, without_ids. rewrite H.
      f_equal. apply (f_equal (@length TaskEntry)) in H.
      now rewrite !length_map in H.
Qed.

(* ===================================================================== *)
(** ** The matcher, stated on the text alone *)
(* ===================================================================== *)

(** X8.  One search of a pattern [<name>([\s\S]*?)</name>] returns the
    first occurrence of the opening tag that is followed by a closing tag,
    with the shortest content up to a closing tag, and returns nothing
    exactly when no opening tag of the text is followed by a closing tag;
    a nested opening tag is part of the content. *)
Theorem X8_search_is_the_first_lazy_match re s :
  (forall cap rest,
      regex_exec re s = Some (cap, rest) <->
      exists pre, first_match re s pre cap rest) /\
  (regex_exec re s = None <-> ~ contains_tag re s).
Proof.
  split; [intros cap rest; apply regex_exec_Some_spec
         | apply regex_exec_None_spec].
Qed.

Lemma first_occurrence_not_occurs pat u :
  pat <> [] -> first_occurrence pat u -> ~ occurs pat u.
Proof.
  intros Hne Hfirst (a & b & ->).
  apply (Hfirst (length a)).
  - rewrite !length_app. destruct pat; [congruence | simpl; lia].
  - exists a, (b ++ pat). split; [now rewrite <- !app_assoc | reflexivity].
Qed.

Lemma occurs_in_trim pat cap : occurs pat (trim cap) -> occurs pat cap.
Proof.
  intros (a & b & E).
  destruct (trim_spec cap) as (l & t & Hcap & _).
  exists (l ++ a), (b ++ t). rewrite Hcap, E. now rewrite <- !app_assoc.
Qed.

Lemma capture_without_closing_tag re s cap :
  re_close re <> [] ->
  str_match re s = Some cap -> ~ occurs (re_close re) (trim cap).
Proof.
  intros Hne H Hocc. apply occurs_in_trim in Hocc.
  apply str_match_Some in H as (pre & rest & _ & _ & Hfirst).
  now apply (first_occurrence_not_occurs Hne Hfirst).
Qed.

Lemma sub_records_without_closing_tag now taskIndex block caps :
  all_matches subProblemRegex block caps ->
  forall subIndex t,
    Forall (fun sp => ~ occurs (re_close subProblemRegex) (sp_description sp))
           (sub_records now taskIndex subIndex t caps).
Proof.
  induction 1 as [s Hno | s pre cap rest caps Hm Hrest IH];
    intros subIndex t; simpl; constructor; [|apply IH].
  simpl. intros Hocc. apply occurs_in_trim in Hocc.
  destruct Hm as (_ & _ & Hfirst).
  now apply (@first_occurrence_not_occurs (re_close subProblemRegex) cap).
Qed.

(** X9.  No text of a success holds the closing tag of its own element:
    a description never holds the closing description tag, a reasoning
    never the closing reasoning tag, a sub-problem description never the
    closing sub_problem tag. *)
Theorem X9_no_field_holds_its_closing_tag now parameters tasks n :
  doWork now parameters = SuccessResult tasks n ->
  Forall
    (fun task =>
       ~ occurs (lit "</description>") (description task) /\
       ~ occurs (lit "</reasoning>") (reasoning task) /\
       Forall (fun sp => ~ occurs (lit "</sub_problem>") (sp_description sp))
              (sub_problems task))
    tasks.
Proof.
  intros H.
  destruct (doWork_success_inv _ _ H) as (payload & blocks & _ & _ & _ & Hc & _).
  apply (@Forall2_right jsstring TaskEntry _ blocks).
  eapply collect_Forall2; [|exact Hc].
  intros taskIndex t block task t' Hbody.
  apply task_body_inr in Hbody as (d & subs & Hd & Hsubs & _ & -> & _).
  simpl. repeat split.
  - apply (@capture_without_closing_tag descRegex block d); [discriminate | exact Hd].
  - destruct (str_match reasoningRegex block) as [r|] eqn:Hr.
    + apply (@capture_without_closing_tag reasoningRegex block r);
        [discriminate | exact Hr].
    + apply not_occurs_lazy_until. vm_compute. reflexivity.
  - now apply (@sub_records_without_closing_tag now taskIndex block subs).
Qed.

(** X9 at the result for [repeated_tags], whose block has two
    description tags. *)
Lemma X9_witness :
  Forall
    (fun task =>
       ~ occurs (lit "</description>") (description task) /\
       ~ occurs (lit "</reasoning>") (reasoning task) /\
       Forall (fun sp => ~ occurs (lit "</sub_problem>") (sp_description sp))
              (sub_problems task))
    repeated_tags_result.
Proof.
  apply (@X9_no_field_holds_its_closing_tag example_clock
           (with_new_tasks (JString repeated_tags)) repeated_tags_result 1).
  vm_compute. reflexivity.
Defined.

(* ===================================================================== *)
(** ** The size of a payload bounds what it yields *)
(* ===================================================================== *)

Lemma all_matches_size re s caps :
  all_matches re s caps ->
  length caps * (length (re_open re) + length (re_close re)) +
  list_sum (map (@length code_unit) caps) <= length s.
Proof.
  induction 1 as [s Hno | s pre cap rest caps Hm Hrest IH]; simpl; [lia|].
  destruct Hm as (-> & _). rewrite !length_app. lia.
Qed.

Lemma sub_problems_fit_in_block blocks tasks :
  Forall2
    (fun block task => 27 * length (sub_problems task) <= length block)
    blocks tasks ->
  27 * list_sum (map (fun task => length (sub_problems task)) tasks) <=
  list_sum (map (@length code_unit) blocks).
Proof. induction 1; simpl; lia. Qed.

(** X10.  The payload bounds the records of a success: a task takes at
    least the 13 code units of its two task tags and a sub-problem the 27
    code units of its two sub_problem tags, so 13 times the count of
    tasks plus 27 times the count of all sub-problems is at most the
    length of the payload. *)
Theorem X10_payload_length_bounds_the_records now parameters payload tasks n :
  parameters "new_tasks" = JString payload ->
  doWork now parameters = SuccessResult tasks n ->
  13 * n + 27 * list_sum (map (fun task => length (sub_problems task)) tasks)
  <= length payload.
Proof.
  intros Hp H.
  destruct (@all_matches_total taskRegex payload taskRegex_open_nonempty)
    as [blocks Hall].
  destruct (doWork_success_blocks now parameters Hp Hall H) as (Hc & -> & _).
  pose proof (all_matches_size Hall) as Hsize. simpl in Hsize.
  assert (27 * list_sum (map (fun task => length (sub_problems task)) tasks) <=
          list_sum (map (@length code_unit) blocks)) as Hsubs.
  { apply sub_problems_fit_in_block.
    eapply collect_Forall2; [|exact Hc].
    intros taskIndex t block task t' Hbody.
    apply task_body_inr in Hbody as (d & subs & _ & Hsubs & _ & -> & _).
    simpl. rewrite sub_records_length.
    pose proof (all_matches_size Hsubs) as Hs. simpl in Hs. lia. }
  lia.
Qed.

(** X10 at [two_tasks]: two tasks and three sub-problems in 299 code
    units. *)
Lemma X10_witness :
  13 * 2 + 27 * list_sum (map (fun task => length (sub_problems task))
                              two_tasks_result)
  <= length two_tasks.
Proof.
  apply (@X10_payload_length_bounds_the_records example_clock
           (with_new_tasks (JString two_tasks)) two_tasks two_tasks_result 2).
  - reflexivity.
  - vm_compute. reflexivity.
Defined.

(* ===================================================================== *)
(** ** The descriptor of the tool *)
(* ===================================================================== *)

Module ReflectTool.

(** An entry of the [parameters] array. *)
Record ToolParameter := {
  tp_name : string;
  tp_type : string;
  tp_description : string;
  tp_required : bool
}.

(** The object [getToolInfo] returns.  The enumeration [ToolType] is
    declared outside the sources at hand: it is a parameter, with its
    member [REFLECT]. *)
Record DetailedToolInfo (ToolType : Type) := {
  ti_type : ToolType;
  ti_name : string;
  ti_description : string;
  ti_parameters : list ToolParameter
}.

Definition name : string := "REFLECT".

Definition description : string :=
  "Add new tasks with sub-problems to the task queue when current tasks are finished but generation output is incomplete. Use ONLY when: 1) Task queue is empty but main objective is not yet complete, 2) Current tasks are finished but generation output is incomplete, 3) Need to create new tasks to continue progress toward completion, 4) Session is ending but final output quality is insufficient. DO NOT use for task refinement or sub-problem adjustment - that's handled by task optimization. This tool helps create new tasks to bridge gaps when existing work is complete but the overall objective remains unfinished. IMPORTANTLY: Also use this tool when the task queue is empty but the main objective is not yet complete - analyze what still needs to be done and generate the necessary tasks to finish the work. This tool helps maintain organized task flow and ensures comprehensive character and worldbook development.".

Definition parameters : list ToolParameter :=
  [ {| tp_name := "new_tasks";
       tp_type := "string";
       tp_description :=
         "XML-formatted task structure. Use nested XML elements: <task><description>task description</description><reasoning>task reasoning</reasoning><sub_problem>sub-problem 1</sub_problem><sub_problem>sub-problem 2</sub_problem></task>. Multiple tasks can be included by repeating the <task> element.";
       tp_required := true |} ].

(** [ReflectTool.getToolInfo]. *)
Definition getToolInfo {ToolType : Type} (REFLECT : ToolType)
  : DetailedToolInfo ToolType :=
  {| ti_type := REFLECT;
     ti_name := name;
     ti_description := description;
     ti_parameters := parameters |}.

End ReflectTool.

(** X11.  What the descriptor declares is what [doWork] enforces: every
    declared parameter is required, a call in which the value of a
    declared parameter has another type than the declared one (an absent
    value included) fails with the parameter-validation message, and the
    result depends on the values of the declared parameters only. *)
Theorem X11_declared_parameters_are_enforced
  (ToolType : Type) (REFLECT : ToolType) now :
  Forall
    (fun p =>
       ReflectTool.tp_required p = true /\
       forall parameters,
         typeof (parameters (ReflectTool.tp_name p)) <> ReflectTool.tp_type p ->
         doWork now parameters = FailureResult msg_requires_parameter)
    (ReflectTool.ti_parameters (ReflectTool.getToolInfo REFLECT)) /\
  forall parameters1 parameters2,
    Forall
      (fun p =>
         parameters1 (ReflectTool.tp_name p) =
         parameters2 (ReflectTool.tp_name p))
      (ReflectTool.ti_parameters (ReflectTool.getToolInfo REFLECT)) ->
    doWork now parameters1 = doWork now parameters2.
Proof.
  split.
  - repeat constructor. simpl. intros parameters Htype.
    apply doWork_guard. intros payload Hp. rewrite Hp in Htype.
    now contradiction Htype.
  - intros parameters1 parameters2 H. inversion H as [|p ps Hsame _]; subst.
    simpl in Hsame. unfold doWork. now rewrite Hsame.
Qed.

(* ===================================================================== *)
(** ** Payloads written block by block *)
(* ===================================================================== *)

(** A payload written from its blocks: before each block a text, then the
    block between its two task tags; a last text at the end. *)
Fixpoint write_payload (items : list (jsstring * jsstring)) (tail : jsstring)
  : jsstring :=
  match items with
  | [] => tail
  | (before, block) :: items' =>
      before ++ re_open taskRegex ++ block ++ re_close taskRegex ++
      write_payload items' tail
  end.

(** The text before a block holds no opening task tag, and the block no
    closing task tag. *)
Definition well_written (item : jsstring * jsstring) : Prop :=
  ~ occurs (re_open taskRegex) (fst item) /\
  ~ occurs (re_close taskRegex) (snd item).

Lemma all_matches_write_payload items tail :
  Forall well_written items ->
  ~ occurs (re_open taskRegex) tail ->
  all_matches taskRegex (write_payload items tail) (map snd items).
Proof.
  intros Hitems Htail.
  induction Hitems as [|[before block] items [Hb Hc] _ IH].
  - apply all_matches_stop. simpl write_payload.
    rewrite <- (app_nil_r tail).
    rewrite (@regex_exec_skip_free taskRegex tail []);
      [reflexivity | reflexivity | assumption | now left].
  - change (write_payload ((before, block) :: items) tail)
      with (before ++ re_open taskRegex ++ block ++ re_close taskRegex ++
            write_payload items tail).
    change (map snd ((before, block) :: items)) with (block :: map snd items).
    eapply all_matches_step; [|exact IH].
    rewrite (@regex_exec_skip_free taskRegex before);
      [| reflexivity | assumption | right; reflexivity].
    apply regex_exec_own_tag; [reflexivity | assumption].
Qed.

(** X12.  The outer loop visits exactly the blocks a payload is written
    from, in their order, as long as no text before a block holds an
    opening task tag and no block holds a closing task tag; the text
    between the blocks plays no part, so that two payloads written from
    the same blocks give the same result. *)
Theorem X12_text_between_blocks_is_ignored
  now parameters1 parameters2 items1 items2 tail1 tail2 :
  parameters1 "new_tasks" = JString (write_payload items1 tail1) ->
  parameters2 "new_tasks" = JString (write_payload items2 tail2) ->
  Forall well_written items1 ->
  Forall well_written items2 ->
  ~ occurs (re_open taskRegex) tail1 ->
  ~ occurs (re_open taskRegex) tail2 ->
  items1 <> [] ->
  map snd items1 = map snd items2 ->
  all_matches taskRegex (write_payload items1 tail1) (map snd items1) /\
  doWork now parameters1 = doWork now parameters2.
Proof.
  intros Hp1 Hp2 Hw1 Hw2 Ht1 Ht2 Hne Hsame.
  pose proof (all_matches_write_payload Hw1 Ht1) as Hall1.
  pose proof (all_matches_write_payload Hw2 Ht2) as Hall2.
  split; [exact Hall1|].
  assert (map snd items1 <> []) as Hne1 by (destruct items1; [congruence | discriminate]).
  rewrite (doWork_string now parameters1 Hp1
             (payload_with_block_nonempty Hall1 Hne1) Hall1).
  rewrite <- Hsame in Hall2.
  rewrite (doWork_string now parameters2 Hp2
             (payload_with_block_nonempty Hall2 Hne1) Hall2).
  reflexivity.
Qed.

(** Closed texts hold no given literal, by evaluation. *)
Ltac solve_not_occurs :=
  apply not_occurs_lazy_until; vm_compute; reflexivity.

(** X12 at one block, written bare and written inside other text and
    tags. *)
Lemma X12_witness :
  all_matches taskRegex
    (write_payload [(lit "", first_block)] (lit "")) [first_block] /\
  doWork example_clock
    (with_new_tasks (JString (write_payload [(lit "", first_block)] (lit "")))) =
  doWork example_clock
    (with_new_tasks
       (JString (write_payload [(lit "Plan: <b>next</b> ", first_block)]
                               (lit " </task> done")))).
Proof.
  apply (@X12_text_between_blocks_is_ignored example_clock
           (with_new_tasks
              (JString (write_payload [(lit "", first_block)] (lit ""))))
           (with_new_tasks
              (JString (write_payload [(lit "Plan: <b>next</b> ", first_block)]
                                      (lit " </task> done"))))
           [(lit "", first_block)] [(lit "Plan: <b>next</b> ", first_block)]
           (lit "") (lit " </task> done")).
  - reflexivity.
  - reflexivity.
  - repeat constructor; solve_not_occurs.
  - repeat constructor; solve_not_occurs.
  - solve_not_occurs.
  - solve_not_occurs.
  - discriminate.
  - reflexivity.
Defined.

(* ===================================================================== *)
(** ** Writing tasks and reading them back *)
(* ===================================================================== *)

(** What a caller wants to add: a description, maybe a reasoning, and
    sub-problems. *)
Record TaskSpec := {
  ts_description : jsstring;
  ts_reasoning : option jsstring;
  ts_sub_problems : list jsstring
}.

(** The block of a task in the format the parameter's description gives:
    the description tag, the reasoning tag if any, the sub_problem
    tags. *)
Definition elements_of (ts : TaskSpec) : list element :=
  Tag KDescription (ts_description ts)
  :: match ts_reasoning ts with
     | Some r => [Tag KReasoning r]
     | None => []
     end
  ++ map (Tag KSubProblem) (ts_sub_problems ts).

Definition write_task (ts : TaskSpec) : jsstring := render (elements_of ts).

(** The payload of a sequence of tasks, each after a text of its own. *)
Definition write_tasks (specs : list (jsstring * TaskSpec)) (tail : jsstring)
  : jsstring :=
  write_payload (map (fun item => (fst item, write_task (snd item))) specs) tail.

(** A text that holds no tag literal of a block and no closing task
    tag. *)
Definition clean (text : jsstring) : Prop :=
  tag_free text /\ ~ occurs (re_close taskRegex) text.

(** The texts of a task are clean and the task has a sub-problem. *)
Definition writable (ts : TaskSpec) : Prop :=
  clean (ts_description ts) /\
  match ts_reasoning ts with Some r => clean r | None => True end /\
  Forall clean (ts_sub_problems ts) /\
  ts_sub_problems ts <> [].

(** The records expected for a sequence of tasks, from task index
    [taskIndex] and clock read [t] on: the texts trimmed, the placeholder
    where no reasoning is given, the identifiers by position. *)
Fixpoint expected_tasks (now : Clock) (taskIndex t : nat) (specs : list TaskSpec)
  : list TaskEntry :=
  match specs with
  | [] => []
  | ts :: specs' =>
      let subs := ts_sub_problems ts in
      {| id := task_id (now (t + length subs)) taskIndex;
         description := trim (ts_description ts);
         reasoning :=
           match ts_reasoning ts with
           | Some r => trim r
           | None => generated_by_reflection
           end;
         sub_problems := sub_records now taskIndex 0 t subs |}
      :: expected_tasks now (S taskIndex) (S (t + length subs)) specs'
  end.

(** A literal that differs from [pat] and holds no angle bracket after
    its first code unit. *)
Definition differs_from (pat w : jsstring) : bool :=
  clash pat w && forallb (fun c => negb (N.eqb c lt_sign)) (tl w).

Lemma lazy_until_None_skip_plain pat u s :
  hd_error pat = Some lt_sign ->
  plain u ->
  lazy_until pat s = None ->
  lazy_until pat (u ++ s) = None.
Proof.
  intros Hp Hu Hs. induction Hu as [|c u Hc Hu IH]; [exact Hs|].
  rewrite lazy_until_eq. simpl app.
  now rewrite (@strip_prefix_plain_head pat c (u ++ s) Hp Hc), IH.
Qed.

Lemma lazy_until_None_skip_literal pat w s :
  hd_error pat = Some lt_sign ->
  differs_from pat w = true ->
  lazy_until pat s = None ->
  lazy_until pat (w ++ s) = None.
Proof.
  intros Hp H Hs. apply andb_prop in H as [Hclash Hplain].
  destruct w as [|c w]; [exact Hs|].
  rewrite lazy_until_eq. rewrite (@strip_prefix_clash pat (c :: w) s Hclash).
  simpl.
  rewrite (@lazy_until_None_skip_plain pat w s Hp (plain_forallb _ Hplain) Hs).
  reflexivity.
Qed.

Lemma lazy_until_None_skip_free pat u s :
  bracket_first pat = true ->
  ~ occurs pat u ->
  s = [] \/ hd_error s = Some lt_sign ->
  lazy_until pat s = None ->
  lazy_until pat (u ++ s) = None.
Proof.
  intros Hp Hfree Hhd Hs. induction u as [|c u IH]; [exact Hs|].
  rewrite lazy_until_eq.
  destruct (strip_prefix pat ((c :: u) ++ s)) as [r|] eqn:E.
  - exfalso. apply Hfree.
    apply (@literal_within pat (c :: u) s r Hp); [discriminate | assumption ..].
  - simpl. rewrite IH; [reflexivity|].
    eapply not_occurs_tail; eassumption.
Qed.

(** The closing task tag does not occur in a block written from elements
    whose texts do not hold it. *)
Lemma render_without_closing_task els :
  Forall (fun e =>
            match e with
            | Tag _ text => ~ occurs (re_close taskRegex) text
            | Text text => plain text
            end) els ->
  ~ occurs (re_close taskRegex) (render els).
Proof.
  intros H. apply not_occurs_lazy_until.
  induction H as [|e els He _ IH]; [reflexivity|].
  change (render (e :: els)) with (render_element e ++ render els).
  destruct e as [k text|text]; simpl render_element.
  - rewrite <- !app_assoc.
    apply lazy_until_None_skip_literal;
      [reflexivity | destruct k; reflexivity |].
    apply lazy_until_None_skip_free;
      [reflexivity | assumption | right; destruct k; reflexivity |].
    apply lazy_until_None_skip_literal;
      [reflexivity | destruct k; reflexivity | exact IH].
  - apply lazy_until_None_skip_plain; [reflexivity | assumption | exact IH].
Qed.

Lemma texts_of_sub_problems subs :
  texts_of KSubProblem (map (Tag KSubProblem) subs) = subs /\
  texts_of KDescription (map (Tag KSubProblem) subs) = [] /\
  texts_of KReasoning (map (Tag KSubProblem) subs) = [].
Proof.
  induction subs as [|sub subs (IH1 & IH2 & IH3)]; simpl; [auto|].
  now rewrite IH1, IH2, IH3.
Qed.

Lemma elements_of_texts ts :
  first_of KDescription (elements_of ts) = Some (ts_description ts) /\
  first_of KReasoning (elements_of ts) = ts_reasoning ts /\
  texts_of KSubProblem (elements_of ts) = ts_sub_problems ts.
Proof.
  destruct (texts_of_sub_problems (ts_sub_problems ts)) as (H1 & H2 & H3).
  unfold first_of, elements_of.
  destruct (ts_reasoning ts) as [r|]; simpl; rewrite ?H1, ?H2, ?H3; auto.
Qed.

Lemma elements_of_whole ts :
  writable ts ->
  Forall whole_element (elements_of ts) /\
  ~ occurs (re_close taskRegex) (write_task ts).
Proof.
  intros ([Hd Hd'] & Hr & Hsubs & _).
  assert (Forall (fun e => whole_element e /\
                           match e with
                           | Tag _ text => ~ occurs (re_close taskRegex) text
                           | Text text => plain text
                           end) (elements_of ts)) as H.
  { unfold elements_of. constructor; [now split|].
    apply Forall_app. split.
    - destruct (ts_reasoning ts) as [r|]; [|constructor].
      destruct Hr as [Hr Hr']. constructor; [split; assumption | constructor].
    - apply Forall_map. eapply Forall_impl; [|exact Hsubs].
      intros sub [Hs Hs']. now split. }
  split.
  - eapply Forall_impl; [|exact H]. now intros e [He _].
  - apply render_without_closing_task.
    eapply Forall_impl; [|exact H]. now intros e [_ He].
Qed.

Lemma collect_written now specs :
  Forall writable specs ->
  forall taskIndex t,
    collect now taskIndex t (map write_task specs) =
    inr (expected_tasks now taskIndex t specs).
Proof.
  induction 1 as [|ts specs Hts _ IH]; intros taskIndex t;
    cbn [collect map expected_tasks]; [reflexivity|].
  destruct (elements_of_whole Hts) as [Hwhole _].
  unfold write_task at 1.
  rewrite (@task_body_render now taskIndex t (elements_of ts) Hwhole).
  destruct (elements_of_texts ts) as (-> & -> & ->).
  destruct Hts as (_ & _ & _ & Hne).
  destruct (ts_sub_problems ts) as [|sub subs] eqn:Hsubs; [congruence|].
  cbv beta iota zeta. now rewrite IH.
Qed.

Lemma expected_tasks_length now taskIndex t specs :
  length (expected_tasks now taskIndex t specs) = length specs.
Proof.
  revert taskIndex t. induction specs as [|ts specs IH]; intros; simpl;
    [reflexivity | now rewrite IH].
Qed.

(** X13.  Writing tasks in the format the parameter's description gives
    and parsing them gives the tasks back: for one task or more, each
    with clean texts and a sub-problem, whatever text without opening
    task tag lies between the blocks, the result is the success with the
    count of the tasks and, task for task and in the order written, the
    trimmed description, the trimmed reasoning or the placeholder, the
    trimmed sub-problems in their order, and the identifiers of the
    positions. *)
Theorem X13_written_tasks_are_read_back now parameters specs tail :
  parameters "new_tasks" = JString (write_tasks specs tail) ->
  specs <> [] ->
  Forall (fun item => ~ occurs (re_open taskRegex) (fst item) /\
                      writable (snd item)) specs ->
  ~ occurs (re_open taskRegex) tail ->
  doWork now parameters =
  SuccessResult (expected_tasks now 0 0 (map snd specs)) (length specs).
Proof.
  intros Hp Hne Hspecs Htail.
  assert (all_matches taskRegex (write_tasks specs tail)
            (map write_task (map snd specs))) as Hall.
  { unfold write_tasks.
    replace (map write_task (map snd specs))
      with (map snd (map (fun item => (fst item, write_task (snd item))) specs))
      by (rewrite !map_map; reflexivity).
    apply all_matches_write_payload; [|exact Htail].
    apply Forall_map. eapply Forall_impl; [|exact Hspecs].
    intros [before ts] [Hb Hts]. split; [exact Hb|].
    now destruct (elements_of_whole Hts). }
  assert (map write_task (map snd specs) <> []) as Hblocks
      by (destruct specs; [congruence | discriminate]).
  rewrite (doWork_string now parameters Hp
             (payload_with_block_nonempty Hall Hblocks) Hall).
  rewrite collect_written
    by (apply Forall_map; eapply Forall_impl; [|exact Hspecs];
        now intros item [_ H]).
  pose proof (expected_tasks_length now 0 0 (map snd specs)) as Hlen.
  rewrite length_map in Hlen.
  destruct (expected_tasks now 0 0 (map snd specs)) as [|task tasks];
    [destruct specs; [congruence | discriminate]|].
  unfold finish, createSuccessResult. now rewrite Hlen.
Qed.

(** Two tasks to write: one with a reasoning and padded texts, one
    without reasoning and with angle brackets in a text. *)
Definition two_specs : list (jsstring * TaskSpec) :=
  [ (lit "Plan:" ,
     {| ts_description := lit " Name the hero ";
        ts_reasoning := Some (lit "needed first");
        ts_sub_problems := [lit "Pick a name"; lit " Check 1 < 2 "] |});
    (lit " then ",
     {| ts_description := lit "Write backstory";
        ts_reasoning := None;
        ts_sub_problems := [lit "Draft <i>childhood</i>"] |}) ].

Ltac solve_clean :=
  split;
  [ unfold tag_free, tag_literals; simpl flat_map;
    repeat (constructor; [solve_not_occurs|]); constructor
  | solve_not_occurs ].

(** X13 at [two_specs] under the counting clock. *)
Lemma X13_witness :
  doWork counting_clock
    (with_new_tasks (JString (write_tasks two_specs (lit " end")))) =
  SuccessResult
    [ {| id := lit "reflect_task_2_0";
         description := lit "Name the hero";
         reasoning := lit "needed first";
         sub_problems :=
           [ {| sp_id := lit "reflect_sub_0_0_0";
                sp_description := lit "Pick a name";
                sp_reasoning := lit "Generated by reflection" |};
             {| sp_id := lit "reflect_sub_1_0_1";
                sp_description := lit "Check 1 < 2";
                sp_reasoning := lit "Generated by reflection" |} ] |};
      {| id := lit "reflect_task_4_1";
         description := lit "Write backstory";
         reasoning := lit "Generated by reflection";
         sub_problems :=
           [ {| sp_id := lit "reflect_sub_3_1_0";
                sp_description := lit "Draft <i>childhood</i>";
                sp_reasoning := lit "Generated by reflection" |} ] |} ]
    2.
Proof.
  apply (@X13_written_tasks_are_read_back counting_clock
           (with_new_tasks (JString (write_tasks two_specs (lit " end"))))
           two_specs (lit " end")).
  - reflexivity.
  - discriminate.
  - repeat constructor; simpl; try solve_not_occurs; try solve_clean;
      discriminate.
  - solve_not_occurs.
Defined.

(* ===================================================================== *)
(** ** Blocks after blocks *)
(* ===================================================================== *)

(** The loop over [lead ++ rest] is the loop over [lead], then, unless it
    failed, the loop over [rest] from the next task index and the next
    clock read. *)
Lemma collect_app now lead rest :
  forall taskIndex t,
    collect now taskIndex t (lead ++ rest) =
    match collect now taskIndex t lead with
    | inl msg => inl msg
    | inr tasks1 =>
        match collect now (taskIndex + length lead)
                      (t + reads_before tasks1 (length tasks1)) rest with
        | inl msg => inl msg
        | inr tasks2 => inr (tasks1 ++ tasks2)
        end
    end.
Proof.
  induction lead as [|block lead IH]; intros taskIndex t; simpl.
  - rewrite !Nat.add_0_r. now destruct (collect now taskIndex t rest).
  - destruct (task_body now taskIndex t block) as [msg|[task t']] eqn:E;
      [reflexivity|].
    rewrite IH.
    destruct (collect now (S taskIndex) t' lead) as [msg|tasks1]; [reflexivity|].
    apply task_body_inr in E as (d & subs & _ & _ & _ & -> & ->).
    replace (S taskIndex + length lead) with (taskIndex + S (length lead)) by lia.
    replace (S (t + length subs) + reads_before tasks1 (length tasks1))
      with (t + reads_before (task_of now taskIndex t block d subs :: tasks1)
                             (length (task_of now taskIndex t block d subs :: tasks1))).
    + now destruct (collect now (taskIndex + S (length lead)) _ rest).
    + unfold reads_before. simpl. rewrite sub_records_length. lia.
Qed.

(** X14.  Parsing follows the concatenation of block lists: when a
    payload has the blocks of a first payload followed by the blocks of a
    second one, and both of these parse successfully, it parses
    successfully too; its count is the sum of their counts and its tasks
    are their tasks, the first payload's then the second's, but for the
    identifiers. *)
Theorem X14_success_follows_concatenation
  now now1 now2 parameters parameters1 parameters2 payload payload1 payload2
  blocks1 blocks2 tasks1 tasks2 n1 n2 :
  parameters "new_tasks" = JString payload ->
  parameters1 "new_tasks" = JString payload1 ->
  parameters2 "new_tasks" = JString payload2 ->
  all_matches taskRegex payload (blocks1 ++ blocks2) ->
  all_matches taskRegex payload1 blocks1 ->
  all_matches taskRegex payload2 blocks2 ->
  doWork now1 parameters1 = SuccessResult tasks1 n1 ->
  doWork now2 parameters2 = SuccessResult tasks2 n2 ->
  exists tasks,
    doWork now parameters = SuccessResult tasks (n1 + n2) /\
    map task_without_ids tasks =
    map task_without_ids tasks1 ++ map task_without_ids tasks2.
Proof.
  intros Hp Hp1 Hp2 Hall Hall1 Hall2 H1 H2.
  destruct (doWork_success_blocks now1 parameters1 Hp1 Hall1 H1) as (Hc1 & -> & Hne1).
  destruct (doWork_success_blocks now2 parameters2 Hp2 Hall2 H2) as (Hc2 & -> & _).
  assert (blocks1 ++ blocks2 <> []) as Hne by (destruct blocks1; [congruence | discriminate]).
  rewrite (doWork_string now parameters Hp
             (payload_with_block_nonempty Hall Hne) Hall).
  rewrite collect_app.
  pose proof (collect_without_ids now now1 blocks1 0 0 0 0) as HA.
  rewrite Hc1 in HA.
  destruct (collect now 0 0 blocks1) as [msg|tasksA] eqn:EA; [contradiction|].
  pose proof (collect_without_ids now now2 blocks2 (0 + length blocks1) 0
                (0 + reads_before tasksA (length tasksA)) 0) as HB.
  rewrite Hc2 in HB.
  destruct (collect now (0 + length blocks1)
              (0 + reads_before tasksA (length tasksA)) blocks2)
    as [msg|tasksB] eqn:EB; [contradiction|].
  exists (tasksA ++ tasksB). split.
  - apply collect_length in EA, EB.
    destruct (tasksA ++ tasksB) as [|task tasks] eqn:E.
    + apply app_eq_nil in E as [-> _]. destruct blocks1; [congruence | discriminate].
    + unfold finish, createSuccessResult. f_equal.
      rewrite <- E, length_app. lia.
  - now rewrite map_app, HA, HB.
Qed.

(** The first block of [two_tasks] as a payload of its own, and what
    [doWork] returns for it under the clock that stands still. *)
Definition first_alone : jsstring :=
  write_payload [(lit "", nth 0 two_tasks_blocks [])] [].

Definition first_alone_result : list TaskEntry :=
  Eval vm_compute in
    match doWork example_clock (with_new_tasks (JString first_alone)) with
    | SuccessResult tasks _ => tasks
    | FailureResult _ => []
    end.

(** The second block of [two_tasks] as a payload of its own, and what
    [doWork] returns for it under the counting clock. *)
Definition second_alone : jsstring :=
  write_payload [(lit "", nth 1 two_tasks_blocks [])] [].

Definition second_alone_result : list TaskEntry :=
  Eval vm_compute in
    match doWork counting_clock (with_new_tasks (JString second_alone)) with
    | SuccessResult tasks _ => tasks
    | FailureResult _ => []
    end.

(** X14 at [two_tasks], whose blocks are those of two payloads of one
    block each. *)
Lemma X14_witness :
  exists tasks,
    doWork counting_clock (with_new_tasks (JString two_tasks)) =
    SuccessResult tasks (1 + 1) /\
    map task_without_ids tasks =
    map task_without_ids first_alone_result ++
    map task_without_ids second_alone_result.
Proof.
  apply (@X14_success_follows_concatenation counting_clock example_clock
           counting_clock
           (with_new_tasks (JString two_tasks))
           (with_new_tasks (JString first_alone))
           (with_new_tasks (JString second_alone))
           two_tasks first_alone second_alone
           [nth 0 two_tasks_blocks []] [nth 1 two_tasks_blocks []]).
  - reflexivity.
  - reflexivity.
  - reflexivity.
  - simpl app. solve_all_matches.
  - solve_all_matches.
  - solve_all_matches.
  - vm_compute. reflexivity.
  - vm_compute. reflexivity.
Defined.

(** X15.  The loop returns at the first block that is not well formed
    and reads nothing after it: when the leading blocks of a payload are
    the blocks of a payload that fails, the payload fails with the same
    message, whatever follows and whatever the clocks. *)
Theorem X15_failure_of_leading_blocks_is_final
  now now1 parameters parameters1 payload payload1 lead rest msg :
  parameters "new_tasks" = JString payload ->
  parameters1 "new_tasks" = JString payload1 ->
  all_matches taskRegex payload (lead ++ rest) ->
  all_matches taskRegex payload1 lead ->
  lead <> [] ->
  doWork now1 parameters1 = FailureResult msg ->
  doWork now parameters = FailureResult msg.
Proof.
  intros Hp Hp1 Hall Hall1 Hne H1.
  assert (lead ++ rest <> []) as Hne' by (destruct lead; [congruence | discriminate]).
  rewrite (doWork_string now1 parameters1 Hp1
             (payload_with_block_nonempty Hall1 Hne) Hall1) in H1.
  rewrite (doWork_string now parameters Hp
             (payload_with_block_nonempty Hall Hne') Hall).
  rewrite collect_app.
  pose proof (collect_without_ids now now1 lead 0 0 0 0) as HA.
  destruct (collect now1 0 0 lead) as [msg1|tasks1] eqn:E1.
  - destruct (collect now 0 0 lead) as [msgA|tasksA]; [|contradiction].
    specialize (HA eq_refl). injection HA as ->. exact H1.
  - exfalso. apply collect_length in E1.
    destruct tasks1; [destruct lead; [congruence | discriminate] | discriminate].
Qed.

(** X15 at a payload that goes on after its failing second block. *)
Lemma X15_witness :
  doWork counting_clock
    (with_new_tasks
       (JString (valid_then_no_subs ++ lit "<task>anything</task>"))) =
  FailureResult
    (lit "REFLECT tool: Task 2 must have at least one <sub_problem> element.").
Proof.
  apply (@X15_failure_of_leading_blocks_is_final counting_clock example_clock
           (with_new_tasks
              (JString (valid_then_no_subs ++ lit "<task>anything</task>")))
           (with_new_tasks (JString valid_then_no_subs))
           (valid_then_no_subs ++ lit "<task>anything</task>")
           valid_then_no_subs
           [first_block; lit "<description>c</description>"] [lit "anything"]).
  - reflexivity.
  - reflexivity.
  - simpl app. solve_all_matches.
  - solve_all_matches.
  - discriminate.
  - vm_compute. reflexivity.
Defined.
